(** * TabuCol: tabu search for graph k-coloring

    A shallow embedding of [tabucol] from [src/tabucol.py] and the
    properties its specification states about it.

    Python integers are [Z]; node indices, which only ever come out of
    [range(len(graph))], are [nat].  The [solution] and
    [aspiration_level] dicts are [gmap]s, the [tabu] deque is a list with
    its oldest entry first, the [move_candidates] set is the sequence of
    its [add]s, and the module-level random generator is a
    stream of integers read through a cursor.  Exceptions are values of
    [result].  The [debug] flag and the calls to [print] have no
    influence on any value computed and are left out. *)

From stdpp Require Import gmap list sorting.
From Stdlib Require Import ZArith Lia.

Set Default Proof Using "Type".
Local Open Scope Z_scope.

(** ** Exceptions and the two monads *)

Inductive exn : Set :=
| ValueError          (* randrange over an empty range *)
| IndexError          (* list index out of range *)
| KeyError            (* dict key absent *)
| TypeError           (* subscripting None *)
| AttributeError      (* a method of None *)
| UnboundLocalError.  (* local variable read before assignment *)

(** The third constructor is the model's own: the [while] loop is run on
    a fuel counter and [OutOfFuel] says the counter was too small.
    [run_has_fuel] below shows that [tabucol] never produces it. *)
Inductive result (A : Type) : Type :=
| Ok (a : A)
| Raise (e : exn)
| OutOfFuel.
Arguments Ok {A} a.
Arguments Raise {A} e.
Arguments OutOfFuel {A}.

Definition result_bind {A B} (f : A → result B) (m : result A) : result B :=
  match m with
  | Ok a => f a
  | Raise e => Raise e
  | OutOfFuel => OutOfFuel
  end.

#[global] Instance result_ret : MRet result := @Ok.
#[global] Instance result_mbind : MBind result := @result_bind.

(** The module-level random generator: the integers it will hand out, in
    order.  [randrange] reduces the next one into its range. *)
Record generator : Type := Generator { draw : nat → Z }.

(** Computations that draw random numbers thread the cursor into the
    random stream. *)
Definition M (A : Type) : Type := nat → result (A * nat).

Definition M_ret {A} (a : A) : M A := λ pos, Ok (a, pos).
Definition M_bind {A B} (f : A → M B) (m : M A) : M B :=
  λ pos, match m pos with
         | Ok (a, pos') => f a pos'
         | Raise e => Raise e
         | OutOfFuel => OutOfFuel
         end.
Definition lift {A} (r : result A) : M A :=
  λ pos, match r with
         | Ok a => Ok (a, pos)
         | Raise e => Raise e
         | OutOfFuel => OutOfFuel
         end.

#[global] Instance M_mret : MRet M := @M_ret.
#[global] Instance M_mbind : MBind M := @M_bind.

(** ** Python built-ins *)

Abbreviation coloring := (gmap nat Z).
Abbreviation move := (nat * Z)%type.

Definition len {A} (l : list A) : Z := Z.of_nat (length l).

(** [l[i]]: a negative index counts from the end. *)
Definition getitem {A} (l : list A) (i : Z) : result A :=
  let j := if i <? 0 then i + len l else i in
  if j <? 0 then Raise IndexError
  else match l !! Z.to_nat j with
       | Some x => Ok x
       | None => Raise IndexError
       end.

(** [range(a, b)] over naturals. *)
Definition range (a b : nat) : list nat := seq a (b - a).

(** [d[i]] for a variable [d] that holds a dict or [None]. *)
Definition subscript (d : option coloring) (i : nat) : result Z :=
  match d with
  | None => Raise TypeError
  | Some m => match m !! i with
              | Some c => Ok c
              | None => Raise KeyError
              end
  end.

(** Reading a local variable that may not have been assigned yet. *)
Definition bound {A} (v : option A) : result A :=
  match v with
  | Some a => Ok a
  | None => Raise UnboundLocalError
  end.

(** [dict.setdefault(k, v)]: the value read and the dict afterwards. *)
Definition setdefault (d : gmap Z Z) (k v : Z) : Z * gmap Z Z :=
  match d !! k with
  | Some w => (w, d)
  | None => (v, <[k:=v]> d)
  end.

(** [deque.remove(x)]: drops the first occurrence. *)
Fixpoint remove_first (x : move) (l : list move) : list move :=
  match l with
  | [] => []
  | y :: l' => if decide (y = x) then l' else y :: remove_first x l'
  end.

(** [deque.popleft()] on a deque that was just appended to. *)
Definition popleft (l : list move) : list move := tail l.

(** A [for] loop over a list whose body may raise. *)
Fixpoint for_each {A S} (body : S → A → result S) (l : list A) (s : S)
  : result S :=
  match l with
  | [] => Ok s
  | x :: l' => s' ← body s x; for_each body l' s'
  end.

(** A Python set of node indices, kept as the sequence of its [add]s,
    oldest first, repetitions included: what [list(s)] enumerates
    depends on that sequence and not on the members alone. *)
Record nodeset : Type := NodeSet { adds : list nat }.

#[global] Instance nodeset_elem_of : ElemOf nat nodeset := λ x s, x ∈ adds s.
#[global] Instance nodeset_empty : Empty nodeset := NodeSet [].

(** [s.add(x)] *)
Definition add (x : nat) (s : nodeset) : nodeset := NodeSet (adds s ++ [x]).

(** [list(s)] enumerates the members of [s], each once, in an order that
    the implementation derives from the sequence of [add]s that built
    [s]; the language fixes nothing more. *)
Class SetOrder := {
  list_of_set : nodeset → list nat;
  list_of_set_perm : ∀ s, list_of_set s ≡ₚ remove_dups (adds s)
}.

(** CPython stores a small non-negative integer in the slot of its own
    value, so for graphs of at most eight nodes the enumeration is
    ascending, whatever the sequence of [add]s. *)
Definition ascending : SetOrder :=
  {| list_of_set := λ s, merge_sort Nat.le (remove_dups (adds s));
     list_of_set_perm :=
       λ s, merge_sort_Permutation Nat.le (remove_dups (adds s)) |}.

(** An enumeration that does depend on the sequence of [add]s: the
    members in the order of their last [add]. *)
Definition by_last_add : SetOrder :=
  {| list_of_set := λ s, remove_dups (adds s);
     list_of_set_perm := λ s, reflexivity (remove_dups (adds s)) |}.

(** ** Sample inputs *)

(** The random stream that starts with [l] and goes on with zeros. *)
Definition stream (l : list Z) : generator :=
  Generator (λ n, default 0 (l !! n)).

(** Two nodes joined by an edge. *)
Definition single_edge : list (list Z) := [[0; 1]; [1; 0]].

(** Three nodes joined pairwise. *)
Definition triangle : list (list Z) := [[0; 1; 1]; [1; 0; 1]; [1; 1; 0]].

(** [single_edge] with its diagonal and lower triangle overwritten: two
    self-loops and no edge back from node 1 to node 0. *)
Definition lopsided : list (list Z) := [[5; 1]; [0; 7]].


(** [single_edge] with a first row that stops at the diagonal. *)
Definition ragged : list (list Z) := [[0]; [1; 0]].


(** ** The algorithm *)

(** How a pass of a loop ends, and a loop itself: through [break], or
    by going on to the next pass until none is left. *)
Inductive flow : Set := Break | Next.

(** The locals of [tabucol] that live across iterations of the [while]
    loop. *)
Record locals : Type := Locals {
  iterations : Z;
  tabu : list move;
  solution : option coloring;         (* [None] is Python's None *)
  aspiration_level : gmap Z Z;
  conflict_count : option Z;          (* [None]: not assigned yet *)
  node : option nat                   (* [None]: not assigned yet *)
}.

(** What one pass of the [for r in range(reps)] loop reads and writes. *)
Record sampler : Type := Sampler {
  s_node : option nat;
  s_new_solution : option coloring;
  s_tabu : list move;
  s_aspiration : gmap Z Z
}.

Section Tabucol.

Context {order : SetOrder}.
Variable rng : generator.
Variable graph : list (list Z).
Variable number_of_colors : Z.
Variables tabu_size reps max_iterations : Z.

(** [randrange(0, stop)] *)
Definition randrange (stop : Z) : M Z :=
  λ pos, if 0 <? stop then Ok (draw rng pos `mod` stop, S pos)
         else Raise ValueError.

(** Line 8 *)
Definition colors : list Z := Z.of_nat <$> seq 0 (Z.to_nat number_of_colors).

(** Lines 16-18 *)
Fixpoint random_solution (nodes : list nat) (sol : coloring) : M coloring :=
  match nodes with
  | [] => mret sol
  | i :: nodes' =>
      d ← randrange (len colors);
      c ← lift (getitem colors d);
      random_solution nodes' (<[i:=c]> sol)
  end.

(** Lines 10-21 *)
Definition initial : M locals :=
  sol ← random_solution (range 0 (length graph)) ∅;
  mret (Locals 0 [] (Some sol) ∅ None None).

(** [graph[i][j] > 0] *)
Definition adjacent (i j : nat) : result bool :=
  row ← getitem graph (Z.of_nat i);
  x ← getitem row (Z.of_nat j);
  mret (0 <? x).

(** Lines 25-33: the conflicting nodes and the number of conflicts. *)
Definition scan_pair (sol : option coloring) (i : nat)
    (acc : nodeset * Z) (j : nat) : result (nodeset * Z) :=
  adj ← adjacent i j;
  if adj : bool then
    ci ← subscript sol i;
    cj ← subscript sol j;
    if decide (ci = cj)
    then mret (add j (add i acc.1), acc.2 + 1)
    else mret acc
  else mret acc.

Definition evaluate (sol : option coloring) : result (nodeset * Z) :=
  let n := length graph in
  for_each (λ acc i, for_each (scan_pair sol i) (range (S i) n) acc)
           (range 0 n) (∅, 0).

(** Lines 56-60: the number of conflicts alone. *)
Definition count_pair (sol : option coloring) (i : nat)
    (count : Z) (j : nat) : result Z :=
  adj ← adjacent i j;
  if adj : bool then
    ci ← subscript sol i;
    cj ← subscript sol j;
    mret (if decide (ci = cj) then count + 1 else count)
  else mret count.

Definition count_conflicts (sol : option coloring) : result Z :=
  let n := length graph in
  for_each (λ count i, for_each (count_pair sol i) (range (S i) n) count)
           (range 0 n) 0.

(** Lines 48-50: the last color stands in for the current one. *)
Definition substitute (current c : Z) : result Z :=
  if decide (current = c) then getitem colors (-1) else mret c.

(** [tabu.append(m)] followed by lines 86-87. *)
Definition push (m : move) (t : list move) : list move :=
  let t' := t ++ [m] in
  if tabu_size <? len t' then popleft t' else t'.

(** Lines 61-78: whether sampling stops after an attempt that moved
    to [new_conflicts] conflicts by move [m], and the tabu list and the
    aspiration table afterwards.  [Break] stands for both [break]
    statements, [Next] for [continue] and for falling off the end of
    the body. *)
Definition accept (conflict_count new_conflicts : Z) (m : move)
    (tabu : list move) (aspiration_level : gmap Z Z)
  : flow * list move * gmap Z Z :=
  if new_conflicts <? conflict_count then
    let '(a, asp) := setdefault aspiration_level conflict_count
                                (conflict_count - 1) in
    if new_conflicts <=? a then
      let asp' := <[conflict_count:=new_conflicts - 1]> asp in
      if decide (m ∈ tabu)
      then (Break, remove_first m tabu, asp')
      else (Break, tabu, asp')
    else
      if decide (m ∈ tabu)
      then (Next, tabu, asp)
      else (Break, tabu, asp)
  else (Next, tabu, aspiration_level).

Section Iteration.

(** The locals an iteration fixes before it starts sampling. *)
Variable solution : option coloring.
Variable conflict_count : Z.
Variable move_candidates : list nat.

(** Lines 43-78: one pass of the [for] loop. *)
Definition attempt (st : sampler) : M (flow * sampler) :=
  r ← randrange (len move_candidates);
  node ← lift (getitem move_candidates r);
  d ← randrange (len colors - 1);
  c ← lift (getitem colors d);
  current ← lift (subscript solution node);
  new_color ← lift (substitute current c);
  copy ← lift (match solution with
               | Some s => Ok s
               | None => Raise AttributeError
               end);
  let new_solution := <[node:=new_color]> copy in
  new_conflicts ← lift (count_conflicts (Some new_solution));
  let '(fl, tabu, asp) :=
    accept conflict_count new_conflicts (node, new_color)
           (s_tabu st) (s_aspiration st) in
  mret (fl, Sampler (Some node) (Some new_solution) tabu asp).

(** Lines 42-78 *)
Fixpoint sample (n : nat) (st : sampler) : M sampler :=
  match n with
  | O => mret st
  | S n' =>
      '(fl, st') ← attempt st;
      match fl with
      | Break => mret st'
      | Next => sample n' st'
      end
  end.

End Iteration.

(** Lines 24-93: the body of the [while] loop. *)
Definition iteration (st : locals) : M (flow * locals) :=
  '(candidates, count) ← lift (evaluate (solution st));
  let move_candidates := list_of_set candidates in
  if decide (count = 0) then
    mret (Break, Locals (iterations st) (tabu st) (solution st)
                        (aspiration_level st) (Some count) (node st))
  else
    s ← sample (solution st) count move_candidates (Z.to_nat reps)
               (Sampler (node st) None (tabu st) (aspiration_level st));
    nd ← lift (bound (s_node s));
    old ← lift (subscript (solution st) nd);
    mret (Next, Locals (iterations st + 1) (push (nd, old) (s_tabu s))
                       (s_new_solution s) (s_aspiration s)
                       (Some count) (Some nd)).

(** Line 23: the [while] loop.  [Break] in the result says the loop
    was left at line 38, [Next] that its condition failed. *)
Fixpoint search (fuel : nat) (st : locals) : M (flow * locals) :=
  if iterations st <? max_iterations then
    match fuel with
    | O => λ _, OutOfFuel
    | S fuel' =>
        '(fl, st') ← iteration st;
        match fl with
        | Break => mret (Break, st')
        | Next => search fuel' st'
        end
    end
  else mret (Next, st).

(** Lines 8-93: everything up to the final test, started at the head
    of the random stream. *)
Definition run : result (flow * locals * nat) :=
  (st ← initial; search (Z.to_nat max_iterations) st) O.

(** Lines 99-104 *)
Definition verdict (st : locals) : result (option coloring) :=
  count ← bound (conflict_count st);
  if decide (count ≠ 0) then mret None else mret (solution st).

Definition tabucol : result (option coloring) :=
  '(_, st, _) ← run; verdict st.

(** The states the [while] loop tests its condition in, each with the
    cursor into the random stream at that moment. *)
Inductive reachable : locals → nat → Prop :=
| reachable_initial st pos :
    initial O = Ok (st, pos) → reachable st pos
| reachable_iteration st pos st' pos' :
    reachable st pos →
    iterations st < max_iterations →
    iteration st pos = Ok (Next, st', pos') →
    reachable st' pos'.

(** [sampled sol count cands n s pos s' pos']: starting from [s], [n]
    passes of the [for] loop have run, none of them left the loop, and
    the next pass would start from [s']. *)
Inductive sampled (sol : option coloring) (count : Z) (cands : list nat)
  : nat → sampler → nat → sampler → nat → Prop :=
| sampled_none s pos : sampled sol count cands O s pos s pos
| sampled_next n s pos s1 pos1 s2 pos2 :
    sampled sol count cands n s pos s1 pos1 →
    attempt sol count cands s1 pos1 = Ok (Next, s2, pos2) →
    sampled sol count cands (S n) s pos s2 pos2.

(** ** Vocabulary of the specification *)

(** The pairs the two nested [for] loops visit, in order. *)
Definition pairs (n : nat) : list (nat * nat) :=
  i ← range 0 n; j ← range (S i) n; [(i, j)].

(** The pair [(i, j)] is an edge whose ends have the same color. *)
Definition conflicting (sol : option coloring) (i j : nat) : Prop :=
  adjacent i j = Ok true ∧
  ∃ c, subscript sol i = Ok c ∧ subscript sol j = Ok c.

(** Scanning the pair [(i, j)] raises nothing. *)
Definition scans (sol : option coloring) (i j : nat) : Prop :=
  ∃ adj, adjacent i j = Ok adj ∧
         (adj = true → ∃ ci cj, subscript sol i = Ok ci ∧
                                subscript sol j = Ok cj).

(** A proper coloring: the ends of every edge [(i, j)], [i < j], are
    colored, and differently. *)
Definition proper (m : coloring) : Prop :=
  ∀ i j, (i < j < length graph)%nat → adjacent i j = Ok true →
         ∃ ci cj, m !! i = Some ci ∧ m !! j = Some cj ∧ ci ≠ cj.

(** Every color assigned lies in [[0, k)]. *)
Definition palette (m : coloring) : Prop :=
  ∀ i c, m !! i = Some c → 0 ≤ c < number_of_colors.

(** Every node is colored. *)
Definition total (m : coloring) : Prop :=
  ∀ i, (i < length graph)%nat → is_Some (m !! i).

(** The adjacency matrix has a row of full length per node. *)
Definition square : Prop :=
  ∀ row, row ∈ graph → length row = length graph.

(** An aspiration table whose entries are all at most those of an
    earlier table. *)
Definition improves (earlier later : gmap Z Z) : Prop :=
  ∀ z v, earlier !! z = Some v → ∃ w, later !! z = Some w ∧ w ≤ v.

(** [conflicting], computed. *)
Definition conflictb (sol : option coloring) (i j : nat) : bool :=
  match adjacent i j, subscript sol i, subscript sol j with
  | Ok true, Ok ci, Ok cj => bool_decide (ci = cj)
  | _, _, _ => false
  end.

(** The keys of a solution are the nodes. *)
Definition keyed (m : coloring) : Prop :=
  ∀ i, is_Some (m !! i) ↔ (i < length graph)%nat.


(** What holds of the locals each time the loop condition is tested. *)
Definition at_head (st : locals) : Prop :=
  0 ≤ iterations st ≤ Z.max 0 max_iterations ∧
  (if decide (iterations st = 0) then conflict_count st = None
   else ∃ c, conflict_count st = Some c ∧ 0 < c) ∧
  (∀ m, solution st = Some m → palette m) ∧
  len (tabu st) ≤ Z.max 0 tabu_size ∧
  is_Some (solution st) ∧
  (is_Some (node st) → 1 ≤ reps).

(** A computation that did not stop for lack of fuel. *)
Definition fuelled {A} (r : result A) : Prop := r ≠ OutOfFuel.

(** ** Properties of the built-ins *)

Section Builtins.
Context {A B : Type}.

Lemma bind_Ok (f : A → result B) (m : result A) (b : B) :
  m ≫= f = Ok b ↔ ∃ a, m = Ok a ∧ f a = Ok b.
Proof.
  destruct m; simpl; split; try (intros (? & ? & ?)); try done.
  - eauto.
  - congruence.
Qed.

Lemma M_bind_Ok (f : A → M B) (m : M A) pos b pos' :
  (m ≫= f) pos = Ok (b, pos') ↔
  ∃ a p, m pos = Ok (a, p) ∧ f a p = Ok (b, pos').
Proof.
  unfold mbind, M_mbind, M_bind.
  destruct (m pos) as [[a p]| |]; split; try (intros (? & ? & ? & ?));
    try done.
  - eauto.
  - congruence.
Qed.

Lemma lift_Ok (r : result A) pos a pos' :
  lift r pos = Ok (a, pos') ↔ r = Ok a ∧ pos' = pos.
Proof.
  unfold lift. destruct r; (split; [intros ?|intros [? ?]]); by simplify_eq.
Qed.

Lemma mret_Ok (a b : A) (pos pos' : nat) :
  (mret a : M A) pos = Ok (b, pos') ↔ b = a ∧ pos' = pos.
Proof.
  unfold mret, M_mret, M_ret. split; [intros ?|intros [? ?]]; by simplify_eq.
Qed.

Lemma getitem_nat (l : list A) (i : nat) :
  getitem l (Z.of_nat i) =
  match l !! i with Some x => Ok x | None => Raise IndexError end.
Proof.
  unfold getitem. cbv zeta.
  rewrite !(proj2 (Z.ltb_ge (Z.of_nat i) 0)) by lia.
  by rewrite Nat2Z.id.
Qed.

Lemma getitem_nonneg (l : list A) (i : Z) :
  0 ≤ i →
  getitem l i =
  match l !! Z.to_nat i with Some x => Ok x | None => Raise IndexError end.
Proof. intros. rewrite <-(Z2Nat.id i) at 1 by done. apply getitem_nat. Qed.

Lemma getitem_elem_of (l : list A) (i : Z) (x : A) :
  getitem l i = Ok x → x ∈ l.
Proof.
  unfold getitem. cbv zeta. destruct (_ <? 0); [done|].
  destruct (l !! _) eqn:E; [|done].
  intros [= <-]. by eapply list_elem_of_lookup_2.
Qed.

Lemma getitem_last (l : list A) :
  getitem l (-1) =
  match last l with Some x => Ok x | None => Raise IndexError end.
Proof.
  unfold getitem, len. simpl.
  destruct l as [|y l] using rev_ind; [done|].
  rewrite last_snoc, length_app. simpl.
  destruct (Z.ltb_spec (-1 + Z.of_nat (length l + 1)) 0); [lia|].
  replace (Z.to_nat _) with (length l) by lia.
  by rewrite lookup_app_r, Nat.sub_diag by done.
Qed.

Lemma getitem_in_range (l : list A) (i : Z) :
  0 ≤ i < len l → ∃ x, getitem l i = Ok x.
Proof.
  intros Hi. rewrite getitem_nonneg by lia.
  destruct (lookup_lt_is_Some_2 l (Z.to_nat i)) as [x ->]; [|eauto].
  unfold len in Hi. lia.
Qed.
End Builtins.

Lemma randrange_Ok stop pos x pos' :
  randrange stop pos = Ok (x, pos') →
  0 ≤ x < stop ∧ x = draw rng pos `mod` stop ∧ pos' = S pos.
Proof.
  unfold randrange. destruct (Z.ltb_spec 0 stop); [|done].
  intros [= <- <-]. split; [|done]. by apply Z.mod_pos_bound.
Qed.

Lemma randrange_pos stop pos :
  0 < stop → randrange stop pos = Ok (draw rng pos `mod` stop, S pos).
Proof. unfold randrange. by destruct (Z.ltb_spec 0 stop); [|lia]. Qed.

Lemma randrange_empty stop pos :
  stop ≤ 0 → randrange stop pos = Raise ValueError.
Proof. unfold randrange. by destruct (Z.ltb_spec 0 stop); [lia|]. Qed.

Lemma elem_of_colors c : c ∈ colors ↔ 0 ≤ c < number_of_colors.
Proof.
  unfold colors. rewrite list_elem_of_fmap. setoid_rewrite elem_of_seq.
  split.
  - intros (i & -> & Hi). lia.
  - intros Hc. exists (Z.to_nat c). lia.
Qed.

Lemma len_colors : len colors = Z.max 0 number_of_colors.
Proof. unfold len, colors. rewrite length_fmap, length_seq. lia. Qed.

Lemma getitem_colors d :
  0 ≤ d < number_of_colors → getitem colors d = Ok d.
Proof.
  intros Hd. rewrite getitem_nonneg by lia. unfold colors.
  rewrite list_lookup_fmap, lookup_seq_lt by lia. simpl.
  f_equal. lia.
Qed.

Lemma getitem_colors_last :
  1 ≤ number_of_colors → getitem colors (-1) = Ok (number_of_colors - 1).
Proof.
  intros Hk. rewrite getitem_last. unfold colors.
  replace (Z.to_nat number_of_colors) with (S (Z.to_nat (number_of_colors - 1)))
    by lia.
  rewrite seq_S, fmap_app. simpl. rewrite last_snoc. f_equal. lia.
Qed.

(** ** Loops *)

Lemma for_each_app {A S} (body : S → A → result S) l1 l2 s :
  for_each body (l1 ++ l2) s = for_each body l1 s ≫= for_each body l2.
Proof.
  revert s. induction l1 as [|x l1 IH]; intros s; simpl; [done|].
  destruct (body s x); simpl; auto.
Qed.

(** An invariant indexed by the elements already processed. *)
Lemma for_each_inv {A S} (I : list A → S → Prop)
    (body : S → A → result S) l s s' :
  for_each body l s = Ok s' →
  I [] s →
  (∀ pre x s1 s2,
      I pre s1 → x ∈ l → body s1 x = Ok s2 → I (pre ++ [x]) s2) →
  I l s'.
Proof.
  intros Hrun Hinit Hstep.
  cut (∀ pre post s1, l = pre ++ post → I pre s1 →
                      for_each body post s1 = Ok s' → I l s').
  { intros Hcut. by apply (Hcut [] l s). }
  intros pre post. revert pre.
  induction post as [|x post IH]; intros pre s1 Hl Hpre Hpost; simpl in *.
  - rewrite app_nil_r in Hl. by simplify_eq.
  - apply bind_Ok in Hpost as (s2 & Hx & Hpost).
    apply (IH (pre ++ [x]) s2); [by rewrite <-app_assoc| |done].
    apply (Hstep pre x s1 s2); [done| |done].
    rewrite Hl. set_solver.
Qed.

(** A loop whose body cannot raise under an invariant does not raise. *)
Lemma for_each_total {A S} (I : S → Prop) (body : S → A → result S) l s :
  I s →
  (∀ s1 x, I s1 → x ∈ l → ∃ s2, body s1 x = Ok s2 ∧ I s2) →
  ∃ s', for_each body l s = Ok s' ∧ I s'.
Proof.
  revert s. induction l as [|x l IH]; intros s Hs Hstep; simpl; [eauto|].
  destruct (Hstep s x Hs) as (s2 & -> & Hs2); [set_solver|]. simpl.
  apply IH; [done|]. intros. apply Hstep; [done|set_solver].
Qed.

(** Two loops whose bodies commute with a projection of the state. *)
Lemma for_each_project {A S T} (f : S → T)
    (body1 : S → A → result S) (body2 : T → A → result T) l s :
  (∀ s1 x, body1 s1 x ≫= (λ s2, Ok (f s2)) = body2 (f s1) x) →
  for_each body1 l s ≫= (λ s', Ok (f s')) = for_each body2 l (f s).
Proof.
  intros Hstep. revert s.
  induction l as [|x l IH]; intros s; simpl; [done|].
  rewrite <-Hstep. destruct (body1 s x); simpl; auto.
Qed.

Lemma elem_of_range a b i : i ∈ range a b ↔ (a ≤ i < b)%nat.
Proof. unfold range. rewrite elem_of_seq. lia. Qed.

(** ** Conflict evaluation *)

Lemma elem_of_add x y (s : nodeset) : x ∈ add y s ↔ x = y ∨ x ∈ s.
Proof.
  unfold elem_of, nodeset_elem_of, add. simpl.
  rewrite elem_of_app, list_elem_of_singleton. tauto.
Qed.

Lemma not_elem_of_nodeset_empty x : x ∉ (∅ : nodeset).
Proof. apply not_elem_of_nil. Qed.

Lemma nodeset_empty_iff (s : nodeset) : s = ∅ ↔ ∀ x, x ∉ s.
Proof.
  split; [intros -> x; apply not_elem_of_nodeset_empty|].
  destruct s as [[|x l]]; [done|]. intros H. destruct (H x).
  apply list_elem_of_here.
Qed.

Lemma add_nonempty x (s : nodeset) : add x s ≠ ∅.
Proof.
  rewrite nodeset_empty_iff. intros H. apply (H x), elem_of_add. by left.
Qed.

Lemma scan_pair_Ok sol i acc j acc' :
  scan_pair sol i acc j = Ok acc' →
  (conflicting sol i j ∧ acc' = (add j (add i acc.1), acc.2 + 1)) ∨
  (¬ conflicting sol i j ∧ acc' = acc).
Proof.
  unfold scan_pair, conflicting. intros H.
  apply bind_Ok in H as (adj & Hadj & H). rewrite Hadj.
  destruct adj.
  - apply bind_Ok in H as (ci & Hci & H).
    apply bind_Ok in H as (cj & Hcj & H).
    rewrite Hci, Hcj. unfold mret, result_ret in H.
    destruct (decide (ci = cj)) as [->|]; simplify_eq.
    + left. eauto.
    + right. split; [|done]. intros (_ & c & ? & ?). congruence.
  - unfold mret, result_ret in H. simplify_eq.
    right. split; [|done]. intros (? & _). congruence.
Qed.

Lemma count_pair_scan_pair sol i acc j :
  scan_pair sol i acc j ≫= (λ acc', Ok acc'.2) = count_pair sol i acc.2 j.
Proof.
  unfold scan_pair, count_pair.
  destruct (adjacent i j) as [[]| |]; simpl; try done.
  destruct (subscript sol i); simpl; try done.
  destruct (subscript sol j); simpl; try done.
  by destruct (decide _).
Qed.

(** The two counting loops of the source agree. *)
Lemma count_conflicts_evaluate sol :
  count_conflicts sol = evaluate sol ≫= (λ acc, Ok acc.2).
Proof.
  unfold count_conflicts, evaluate. cbv zeta.
  symmetry.
  apply (for_each_project snd
           (λ acc i, for_each (scan_pair sol i) (range (S i) (length graph)) acc)
           (λ count i, for_each (count_pair sol i) (range (S i) (length graph)) count)).
  intros acc i. apply for_each_project. intros. apply count_pair_scan_pair.
Qed.

(** Two nested loops are one loop over the pairs of indices. *)
Lemma for_each_nested {T} (body : nat → T → nat → result T) n s :
  for_each (λ s i, for_each (body i) (range (S i) n) s) (range 0 n) s =
  for_each (λ s p, body p.1 s p.2) (pairs n) s.
Proof.
  unfold pairs. generalize (range 0 n). intros l. revert s.
  induction l as [|i l IH]; intros s; simpl; [done|].
  rewrite for_each_app.
  replace (for_each (λ s p, body p.1 s p.2)
             (j ← range (S i) n; [(i, j)]) s)
    with (for_each (body i) (range (S i) n) s).
  - destruct (for_each (body i) _ s); simpl; auto.
  - generalize (range (S i) n). intros js. revert s.
    induction js as [|j js IHj]; intros s; simpl; [done|].
    destruct (body i s j); simpl; auto.
Qed.

Lemma elem_of_pairs n i j : (i, j) ∈ pairs n ↔ (i < j < n)%nat.
Proof.
  unfold pairs. rewrite list_elem_of_bind. split.
  - intros (i' & (j' & Hp & Hj)%list_elem_of_bind & Hi).
    apply list_elem_of_singleton in Hp. simplify_eq.
    apply elem_of_range in Hj, Hi. lia.
  - intros Hij. exists i. split; [|apply elem_of_range; lia].
    apply list_elem_of_bind. exists j.
    split; [by apply list_elem_of_singleton|apply elem_of_range; lia].
Qed.

Lemma evaluate_pairs sol :
  evaluate sol =
  for_each (λ acc p, scan_pair sol p.1 acc p.2) (pairs (length graph)) (∅, 0).
Proof. unfold evaluate. cbv zeta. apply for_each_nested. Qed.

Lemma scan_pair_scans sol i acc j acc' :
  scan_pair sol i acc j = Ok acc' → scans sol i j.
Proof.
  unfold scan_pair, scans. intros H.
  apply bind_Ok in H as (adj & Hadj & H). exists adj. split; [done|].
  intros ->. apply bind_Ok in H as (ci & Hci & H).
  apply bind_Ok in H as (cj & Hcj & H). eauto.
Qed.

Lemma scans_scan_pair sol i acc j :
  scans sol i j → ∃ acc', scan_pair sol i acc j = Ok acc'.
Proof.
  unfold scan_pair, scans. intros (adj & -> & H). simpl.
  destruct adj; [|by eexists].
  destruct H as (ci & cj & -> & ->); [done|]. simpl.
  destruct (decide _); by eexists.
Qed.

Lemma evaluate_Ok sol cands count :
  evaluate sol = Ok (cands, count) →
  0 ≤ count ∧
  (count ≠ 0 → cands ≠ ∅) ∧
  (∀ x, x ∈ cands → (x < length graph)%nat) ∧
  (∀ i j, (i < j < length graph)%nat → scans sol i j) ∧
  (count = 0 →
   ∀ i j, (i < j < length graph)%nat → ¬ conflicting sol i j).
Proof.
  rewrite evaluate_pairs. intros Hrun.
  pose (I := λ (pre : list (nat * nat)) (acc : nodeset * Z),
          0 ≤ acc.2 ∧
          (acc.2 ≠ 0 → acc.1 ≠ ∅) ∧
          (∀ x, x ∈ acc.1 → (x < length graph)%nat) ∧
          (∀ p, p ∈ pre → scans sol p.1 p.2) ∧
          (acc.2 = 0 → ∀ p, p ∈ pre → ¬ conflicting sol p.1 p.2)).
  assert (I (pairs (length graph)) (cands, count)) as (? & ? & ? & Hs & Hno).
  { apply (for_each_inv I _ _ _ _ Hrun).
    - unfold I. simpl. split_and!; try done.
      + by intros x ?%not_elem_of_nodeset_empty.
      + by intros p ?%elem_of_nil.
      + by intros _ p ?%elem_of_nil.
    - intros pre [i j] s1 s2 (Hge & Hne & Hlt & Hs & Hno) Hij%elem_of_pairs
        Hstep. simpl in Hstep.
      assert (scans sol i j) by by eapply scan_pair_scans.
      apply scan_pair_Ok in Hstep as [[Hc ->]|[Hc ->]]; unfold I; simpl.
      + split_and!; [lia| | | |lia].
        * intros _. apply add_nonempty.
        * intros x. rewrite !elem_of_add.
          intros [->|[->|?]]; [lia|lia|auto].
        * intros p [?| ->%list_elem_of_singleton]%elem_of_app; auto.
      + split_and!; try done.
        * intros p [?| ->%list_elem_of_singleton]%elem_of_app; auto.
        * intros Hz p [?| ->%list_elem_of_singleton]%elem_of_app; auto. }
  simpl in *. split_and!; try done.
  - intros i j Hij%elem_of_pairs. by apply (Hs (i, j)).
  - intros Hz i j Hij%elem_of_pairs. by apply (Hno Hz (i, j)).
Qed.

(** A successful evaluation that counts no conflict certifies a proper
    coloring. *)
Lemma evaluate_proper m cands :
  evaluate (Some m) = Ok (cands, 0) → proper m.
Proof.
  intros (_ & _ & _ & Hs & Hno)%evaluate_Ok i j Hij Hadj.
  destruct (Hs i j Hij) as (adj & Hadj' & Hsub).
  rewrite Hadj in Hadj'. simplify_eq.
  destruct Hsub as (ci & cj & Hci & Hcj); [done|].
  exists ci, cj. simpl in Hci, Hcj.
  destruct (m !! i) eqn:Ei; [|done]. destruct (m !! j) eqn:Ej; [|done].
  simplify_eq. split_and!; try done.
  intros ->. apply (Hno eq_refl i j Hij). split; [done|].
  exists cj. simpl. by rewrite Ei, Ej.
Qed.

(** With a conflicting edge present the count is positive. *)
Lemma evaluate_conflict sol cands count i j :
  evaluate sol = Ok (cands, count) →
  (i < j < length graph)%nat → conflicting sol i j → 0 < count.
Proof.
  intros (? & _ & _ & _ & Hno)%evaluate_Ok Hij Hc.
  destruct (decide (count = 0)) as [Hz|]; [|lia].
  by destruct (Hno Hz i j Hij).
Qed.

(** ** One attempt *)

Lemma remove_first_length m t :
  m ∈ t → S (length (remove_first m t)) = length t.
Proof.
  induction t as [|y t IH]; simpl; [by intros ?%elem_of_nil|].
  intros Hm. destruct (decide (y = m)); [done|]. simpl.
  rewrite IH; [done|]. by apply elem_of_cons in Hm as [->|?].
Qed.

Lemma setdefault_lookup asp z v a asp' :
  setdefault asp z v = (a, asp') →
  asp' !! z = Some a ∧
  (∀ z', z' ≠ z → asp' !! z' = asp !! z') ∧
  match asp !! z with
  | Some w => a = w ∧ asp' = asp
  | None => a = v
  end.
Proof.
  unfold setdefault. destruct (asp !! z) eqn:E; intros [= <- <-].
  - done.
  - rewrite lookup_insert_eq. split_and!; [done| |done].
    intros. by rewrite lookup_insert_ne.
Qed.

Lemma improves_refl asp : improves asp asp.
Proof. intros z v ->. eauto with lia. Qed.

Lemma improves_trans a b c : improves a b → improves b c → improves a c.
Proof.
  intros Hab Hbc z v Hz. destruct (Hab z v Hz) as (w & Hw & ?).
  destruct (Hbc z w Hw) as (u & Hu & ?). eauto with lia.
Qed.

(** The three ways out of lines 61-78. *)
Lemma accept_cases count new m t asp fl t' asp' :
  accept count new m t asp = (fl, t', asp') →
  (* not improving: next attempt *)
  (count ≤ new ∧ fl = Next ∧ t' = t ∧ asp' = asp) ∨
  (* improving and within the aspiration level: accepted, tabu or not *)
  (∃ a asp1, new < count ∧ setdefault asp count (count - 1) = (a, asp1) ∧
             new ≤ a ∧ fl = Break ∧
             asp' = <[count:=new - 1]> asp1 ∧
             t' = if decide (m ∈ t) then remove_first m t else t) ∨
  (* improving but above the aspiration level: accepted unless tabu *)
  (∃ a, new < count ∧ setdefault asp count (count - 1) = (a, asp) ∧
        a < new ∧ t' = t ∧ asp' = asp ∧
        fl = if decide (m ∈ t) then Next else Break).
Proof.
  unfold accept.
  destruct (Z.ltb_spec new count) as [Hlt|Hge]; [|intros [= <- <- <-]; auto].
  destruct (setdefault asp count (count - 1)) as [a asp1] eqn:Hsd.
  destruct (Z.leb_spec new a) as [Hle|Hgt].
  - intros H. right. left. exists a, asp1.
    destruct (decide (m ∈ t)); simplify_eq; split_and!; done.
  - intros H. right. right. exists a.
    assert (asp1 = asp) as ->.
    { apply setdefault_lookup in Hsd as (_ & _ & Hsd).
      destruct (asp !! count); [by destruct Hsd|]. lia. }
    destruct (decide (m ∈ t)); simplify_eq; split_and!; done.
Qed.

Lemma accept_tabu count new m t asp fl t' asp' :
  accept count new m t asp = (fl, t', asp') →
  t' = t ∨ (fl = Break ∧ m ∈ t ∧ t' = remove_first m t).
Proof.
  intros [H|[H|H]]%accept_cases.
  - left. by destruct H as (_ & _ & -> & _).
  - destruct H as (a & asp1 & _ & _ & _ & -> & _ & ->).
    destruct (decide (m ∈ t)); auto.
  - left. by destruct H as (a & _ & _ & _ & -> & _).
Qed.

Lemma accept_tabu_length count new m t asp fl t' asp' :
  accept count new m t asp = (fl, t', asp') → (length t' ≤ length t)%nat.
Proof.
  intros [->|(_ & Hm & ->)]%accept_tabu; [done|].
  apply remove_first_length in Hm. lia.
Qed.

Lemma accept_improves count new m t asp fl t' asp' :
  accept count new m t asp = (fl, t', asp') → improves asp asp'.
Proof.
  intros [H|[H|H]]%accept_cases.
  - destruct H as (_ & _ & _ & ->). apply improves_refl.
  - destruct H as (a & asp1 & Hlt & Hsd & Hle & _ & -> & _).
    apply setdefault_lookup in Hsd as (Ha & Hother & Hold).
    intros z v Hz. destruct (decide (z = count)) as [->|Hne].
    + rewrite lookup_insert_eq. eexists; split; [done|].
      rewrite Hz in Hold. destruct Hold as [-> _]. lia.
    + rewrite lookup_insert_ne, Hother by done. eauto with lia.
  - destruct H as (a & _ & _ & _ & _ & -> & _). apply improves_refl.
Qed.

Lemma attempt_Ok sol count cands st pos fl st' pos' :
  attempt sol count cands st pos = Ok (fl, st', pos') ↔
  ∃ r nd d c m cur nc new,
    randrange (len cands) pos = Ok (r, S pos) ∧
    getitem cands r = Ok nd ∧
    randrange (len colors - 1) (S pos) = Ok (d, S (S pos)) ∧
    getitem colors d = Ok c ∧
    sol = Some m ∧ m !! nd = Some cur ∧
    substitute cur c = Ok nc ∧
    count_conflicts (Some (<[nd:=nc]> m)) = Ok new ∧
    pos' = S (S pos) ∧
    accept count new (nd, nc) (s_tabu st) (s_aspiration st)
      = (fl, s_tabu st', s_aspiration st') ∧
    s_node st' = Some nd ∧
    s_new_solution st' = Some (<[nd:=nc]> m).
Proof.
  unfold attempt. split.
  - intros H.
    apply M_bind_Ok in H as (r & p1 & Hr & H).
    pose proof (randrange_Ok _ _ _ _ Hr) as (_ & _ & ->).
    apply M_bind_Ok in H as (nd & p & [Hnd ->]%lift_Ok & H).
    apply M_bind_Ok in H as (d & p2 & Hd & H).
    pose proof (randrange_Ok _ _ _ _ Hd) as (_ & _ & ->).
    apply M_bind_Ok in H as (c & p & [Hc ->]%lift_Ok & H).
    apply M_bind_Ok in H as (cur & p & [Hcur ->]%lift_Ok & H).
    apply M_bind_Ok in H as (nc & p & [Hnc ->]%lift_Ok & H).
    apply M_bind_Ok in H as (m & p & [Hm ->]%lift_Ok & H).
    apply M_bind_Ok in H as (new & p & [Hnew ->]%lift_Ok & H).
    destruct sol as [m'|]; [|done]. simplify_eq. simpl in Hcur.
    destruct (m !! nd) as [cur'|] eqn:Ecur; [|done]. simplify_eq.
    destruct (accept _ _ _ _ _) as [[fl' t'] asp'] eqn:Hacc.
    apply mret_Ok in H as [? ->]. simplify_eq.
    exists r, nd, d, c, m, cur, nc, new. simpl. split_and!; done.
  - intros (r & nd & d & c & m & cur & nc & new & Hr & Hnd & Hd & Hc & -> &
            Hcur & Hnc & Hnew & -> & Hacc & Hnode & Hsol).
    unfold mbind, M_mbind, M_bind. rewrite Hr. unfold lift at 1.
    rewrite Hnd, Hd. unfold lift at 1. rewrite Hc. simpl. rewrite Hcur.
    simpl. rewrite Hnc. simpl. rewrite Hnew. simpl. rewrite Hacc.
    destruct st'. simpl in *. by subst.
Qed.

Lemma substitute_elem_of cur c nc :
  c ∈ colors → substitute cur c = Ok nc → nc ∈ colors.
Proof.
  unfold substitute. destruct (decide _).
  - intros _. apply getitem_elem_of.
  - by intros ? [= <-].
Qed.

(** An attempt recolors one conflicting node with a color of the
    palette. *)
Lemma attempt_new_solution sol count cands st pos fl st' pos' :
  attempt sol count cands st pos = Ok (fl, st', pos') →
  ∃ m nd nc, sol = Some m ∧ nd ∈ cands ∧ is_Some (m !! nd) ∧
             0 ≤ nc < number_of_colors ∧
             s_node st' = Some nd ∧
             s_new_solution st' = Some (<[nd:=nc]> m).
Proof.
  rewrite attempt_Ok.
  intros (r & nd & d & c & m & cur & nc & new & Hr & Hnd & Hd & Hc & -> &
          Hcur & Hnc & Hnew & -> & Hacc & Hnode & Hsol).
  exists m, nd, nc. split_and!; try done.
  - by eapply getitem_elem_of.
  - apply elem_of_colors. eapply substitute_elem_of; [|done].
    by eapply getitem_elem_of.
  - apply elem_of_colors. eapply substitute_elem_of; [|done].
    by eapply getitem_elem_of.
Qed.

(** ** The sampling loop *)

Lemma sample_sampled sol count cands n k st pos s1 pos1 :
  sampled sol count cands k st pos s1 pos1 →
  sample sol count cands (k + n) st pos = sample sol count cands n s1 pos1.
Proof.
  intros Hk. revert n.
  induction Hk as [|k s pos s1 pos1 s2 pos2 _ IH Hatt]; intros n; [done|].
  replace (S k + n)%nat with (k + S n)%nat by lia. rewrite IH. simpl.
  unfold mbind, M_mbind, M_bind. by rewrite Hatt.
Qed.

Lemma sampled_first sol count cands n st pos s1 pos1 s2 pos2 :
  attempt sol count cands st pos = Ok (Next, s1, pos1) →
  sampled sol count cands n s1 pos1 s2 pos2 →
  sampled sol count cands (S n) st pos s2 pos2.
Proof.
  intros Hatt Hs. induction Hs.
  - eapply sampled_next; [constructor|done].
  - eapply sampled_next; eauto.
Qed.

(** The loop ends with its first attempt that breaks out, or else with
    its last attempt. *)
Lemma sample_Ok sol count cands n st pos st' pos' :
  sample sol count cands n st pos = Ok (st', pos') →
  (n = O ∧ st' = st ∧ pos' = pos) ∨
  ∃ k s1 pos1 fl,
    (k < n)%nat ∧
    sampled sol count cands k st pos s1 pos1 ∧
    attempt sol count cands s1 pos1 = Ok (fl, st', pos') ∧
    (fl = Break ∨ S k = n).
Proof.
  revert st pos. induction n as [|n IH]; intros st pos H; simpl in H.
  - apply mret_Ok in H as [-> ->]. auto.
  - right. apply M_bind_Ok in H as ([fl s1] & p1 & Hatt & H).
    destruct fl.
    + apply mret_Ok in H as [-> ->].
      exists O, st, pos, Break. split_and!; [lia|constructor|done|auto].
    + destruct (IH _ _ H)
        as [(-> & -> & ->)|(k & s2 & p2 & fl & ? & Hs & ? & [->| <-])].
      * exists O, st, pos, Next. split_and!; [lia|constructor|done|auto].
      * exists (S k), s2, p2, Break. split_and!; [lia| |done|auto].
        by eapply sampled_first.
      * exists (S k), s2, p2, fl. split_and!; [lia| |done|auto].
        by eapply sampled_first.
Qed.

(** An invariant of the attempts is an invariant of the loop. *)
Lemma sample_inv (I : sampler → Prop) sol count cands n st pos st' pos' :
  (∀ s p fl s' p', I s → attempt sol count cands s p = Ok (fl, s', p') → I s') →
  I st →
  sample sol count cands n st pos = Ok (st', pos') →
  I st'.
Proof.
  intros Hstep. revert st pos.
  induction n as [|n IH]; intros st pos Hst H; simpl in H.
  - apply mret_Ok in H as [-> ->]. done.
  - apply M_bind_Ok in H as ([fl s1] & p1 & Hatt & H).
    assert (I s1) by eauto.
    destruct fl; [by apply mret_Ok in H as [-> ->]|eauto].
Qed.

(** ** One iteration *)

Lemma iteration_Ok st pos fl st' pos' :
  iteration st pos = Ok (fl, st', pos') ↔
  ∃ cands count,
    evaluate (solution st) = Ok (cands, count) ∧
    ((fl = Break ∧ count = 0 ∧ pos' = pos ∧
      st' = Locals (iterations st) (tabu st) (solution st)
                   (aspiration_level st) (Some 0) (node st)) ∨
     (fl = Next ∧ count ≠ 0 ∧
      ∃ s nd old,
        sample (solution st) count (list_of_set cands) (Z.to_nat reps)
               (Sampler (node st) None (tabu st) (aspiration_level st)) pos
          = Ok (s, pos') ∧
        s_node s = Some nd ∧
        subscript (solution st) nd = Ok old ∧
        st' = Locals (iterations st + 1) (push (nd, old) (s_tabu s))
                     (s_new_solution s) (s_aspiration s)
                     (Some count) (Some nd))).
Proof.
  unfold iteration. split.
  - intros H.
    apply M_bind_Ok in H as ([cands count] & p & [Hev ->]%lift_Ok & H).
    exists cands, count. split; [done|].
    destruct (decide (count = 0)) as [->|Hne].
    + apply mret_Ok in H as [? ->]. simplify_eq. left. done.
    + right.
      apply M_bind_Ok in H as (s & p1 & Hs & H).
      apply M_bind_Ok in H as (nd & p & [Hnd ->]%lift_Ok & H).
      apply M_bind_Ok in H as (old & p & [Hold ->]%lift_Ok & H).
      apply mret_Ok in H as [? ->]. simplify_eq.
      split_and!; try done. exists s, nd, old. split_and!; try done.
      destruct (s_node s); simpl in Hnd; by simplify_eq.
  - intros (cands & count & Hev & H).
    unfold mbind at 1, M_mbind, M_bind. unfold lift at 1. rewrite Hev.
    destruct H as [(-> & -> & -> & ->)|(-> & Hne & s & nd & old & Hs & Hnd & Hold & ->)].
    + done.
    + destruct (decide (count = 0)); [done|].
      unfold mbind, M_mbind, M_bind. rewrite Hs. rewrite Hnd. simpl.
      by rewrite Hold.
Qed.

(** ** Invariants of the search loop *)

Lemma palette_insert m i c :
  palette m → 0 ≤ c < number_of_colors → palette (<[i:=c]> m).
Proof.
  intros Hm Hc j c'. rewrite lookup_insert.
  destruct (decide (i = j)); [by intros [= <-]|]. apply Hm.
Qed.

Lemma random_solution_Ok nodes m pos m' pos' :
  random_solution nodes m pos = Ok (m', pos') →
  palette m → palette m'.
Proof.
  revert m pos. induction nodes as [|i nodes IH]; intros m pos H Hm;
    simpl in H.
  - apply mret_Ok in H as [-> _]. done.
  - apply M_bind_Ok in H as (d & p1 & Hd & H).
    apply M_bind_Ok in H as (c & p & [Hc ->]%lift_Ok & H).
    eapply IH; [done|]. apply palette_insert; [done|].
    apply elem_of_colors. by eapply getitem_elem_of.
Qed.

Lemma initial_Ok st pos :
  initial O = Ok (st, pos) →
  ∃ m, st = Locals 0 [] (Some m) ∅ None None ∧ palette m.
Proof.
  unfold initial. intros H.
  apply M_bind_Ok in H as (m & p & Hm & H).
  apply mret_Ok in H as [-> ->]. exists m. split; [done|].
  eapply random_solution_Ok; [done|]. intros i c. by rewrite lookup_empty.
Qed.

Lemma push_length m t :
  len t ≤ Z.max 0 tabu_size → len (push m t) ≤ Z.max 0 tabu_size.
Proof.
  unfold push, popleft, len. cbv zeta. rewrite length_app. simpl.
  intros Ht. destruct (Z.ltb_spec tabu_size (Z.of_nat (length t + 1))).
  - destruct t; simpl in *; [lia|]. rewrite length_app. simpl. lia.
  - rewrite length_app. simpl. lia.
Qed.

Lemma sample_tabu_length sol count cands n st pos st' pos' :
  sample sol count cands n st pos = Ok (st', pos') →
  (length (s_tabu st') ≤ length (s_tabu st))%nat.
Proof.
  apply (sample_inv (λ s, (length (s_tabu s) ≤ length (s_tabu st))%nat));
    [|done].
  intros s p fl s' p' Hs Hatt. apply attempt_Ok in Hatt.
  destruct Hatt as (r & nd & d & c & m & cur & nc & new & _ & _ & _ & _ & _ &
                    _ & _ & _ & _ & Hacc%accept_tabu_length & _).
  lia.
Qed.

Lemma sample_palette sol count cands n st pos st' pos' :
  sample sol count cands n st pos = Ok (st', pos') →
  (∀ m, sol = Some m → palette m) →
  (∀ m, s_new_solution st = Some m → palette m) →
  ∀ m, s_new_solution st' = Some m → palette m.
Proof.
  intros H Hsol Hst. revert H.
  apply (sample_inv (λ s, ∀ m, s_new_solution s = Some m → palette m));
    [|done].
  intros s p fl s' p' _ Hatt m' Hm'.
  apply attempt_new_solution in Hatt
    as (m & nd & nc & -> & _ & _ & Hnc & _ & Hnew).
  rewrite Hnew in Hm'. simplify_eq. apply palette_insert; auto.
Qed.

Lemma sample_improves sol count cands n st pos st' pos' :
  sample sol count cands n st pos = Ok (st', pos') →
  improves (s_aspiration st) (s_aspiration st').
Proof.
  apply (sample_inv (λ s, improves (s_aspiration st) (s_aspiration s)));
    [|apply improves_refl].
  intros s p fl s' p' Hs Hatt. apply attempt_Ok in Hatt.
  destruct Hatt as (r & nd & d & c & m & cur & nc & new & _ & _ & _ & _ & _ &
                    _ & _ & _ & _ & Hacc%accept_improves & _).
  by eapply improves_trans.
Qed.

Lemma iteration_at_head st pos st' pos' :
  at_head st → iterations st < max_iterations →
  iteration st pos = Ok (Next, st', pos') →
  at_head st'.
Proof.
  intros (Hit & Hcc & Hpal & Htabu & Hsol & Hnode) Hlt.
  rewrite iteration_Ok.
  intros (cands & count & Hev & [(? & _)|(_ & Hne & s & nd & old & Hs & Hnd & Hold & ->)]);
    [done|].
  apply evaluate_Ok in Hev as (Hge & _).
  assert (1 ≤ reps ∧ is_Some (s_new_solution s)) as [Hreps Hnew].
  { apply sample_Ok in Hs
      as [(Hz & -> & _)|(k & s1 & p1 & fl & Hk & _ & Hatt & _)].
    - simpl in Hnd. rewrite Hnd in Hnode. specialize (Hnode ltac:(eauto)). lia.
    - split; [lia|].
      apply attempt_new_solution in Hatt as (m & ? & nc & _ & _ & _ & _ & _ & ->).
      eauto. }
  unfold at_head. simpl. split_and!; try lia; try done.
  - destruct (decide (iterations st + 1 = 0)); [lia|].
    exists count. split; [done|lia].
  - by eapply sample_palette.
  - apply push_length. apply sample_tabu_length in Hs. simpl in Hs.
    unfold len in *. lia.
Qed.

Lemma reachable_at_head st pos : reachable st pos → at_head st.
Proof.
  induction 1 as [st pos Hinit|st pos st' pos' _ IH Hlt Hstep].
  - apply initial_Ok in Hinit as (m & -> & Hm).
    unfold at_head, len. simpl.
    split_and!; [lia|lia|done| |lia|eauto|by intros [? ?]].
    by intros ? [= <-].
  - by eapply iteration_at_head.
Qed.

(** How the loop ends: at a reachable head where the condition fails,
    or through [break] in an iteration started at a reachable head. *)
Lemma search_Ok fuel st pos fl st' pos' :
  reachable st pos →
  search fuel st pos = Ok (fl, st', pos') →
  match fl with
  | Next => reachable st' pos' ∧ max_iterations ≤ iterations st'
  | Break => ∃ st0 pos0, reachable st0 pos0 ∧
                         iterations st0 < max_iterations ∧
                         iteration st0 pos0 = Ok (Break, st', pos')
  end.
Proof.
  revert st pos. induction fuel as [|fuel IH]; intros st pos Hst H; simpl in H.
  - destruct (Z.ltb_spec (iterations st) max_iterations); [done|].
    apply mret_Ok in H as [? ->]. by simplify_eq.
  - destruct (Z.ltb_spec (iterations st) max_iterations).
    + apply M_bind_Ok in H as ([fl1 st1] & p1 & Hit & H). destruct fl1.
      * apply mret_Ok in H as [? ->]. simplify_eq. eauto.
      * eapply IH; [|done]. by eapply reachable_iteration.
    + apply mret_Ok in H as [? ->]. by simplify_eq.
Qed.

Lemma run_Ok fl st pos :
  run = Ok (fl, st, pos) →
  match fl with
  | Next => reachable st pos ∧ max_iterations ≤ iterations st
  | Break => ∃ st0 pos0, reachable st0 pos0 ∧
                         iterations st0 < max_iterations ∧
                         iteration st0 pos0 = Ok (Break, st, pos)
  end.
Proof.
  unfold run. intros H.
  apply M_bind_Ok in H as (st0 & p0 & Hinit & H).
  eapply search_Ok; [|done]. by constructor.
Qed.

Lemma tabucol_Ok r :
  tabucol = Ok r ↔
  ∃ fl st pos, run = Ok (fl, st, pos) ∧ verdict st = Ok r.
Proof.
  unfold tabucol. rewrite bind_Ok. split.
  - intros ([[fl st] pos] & ? & ?). eauto.
  - intros (fl & st & pos & ? & ?). by exists (fl, st, pos).
Qed.

Lemma verdict_Ok st r :
  verdict st = Ok r ↔
  ∃ count, conflict_count st = Some count ∧
           r = if decide (count ≠ 0) then None else solution st.
Proof.
  unfold verdict. rewrite bind_Ok. split.
  - intros (count & Hc & H). exists count.
    destruct (conflict_count st); simpl in Hc; [|done]. simplify_eq.
    split; [done|]. destruct (decide _); unfold mret, result_ret in H;
      by simplify_eq.
  - intros (count & -> & ->). exists count. split; [done|].
    by destruct (decide _).
Qed.

(** ** The fuel always suffices *)

Lemma bind_fuelled {A B} (f : A → result B) (m : result A) :
  fuelled m → (∀ a, fuelled (f a)) → fuelled (m ≫= f).
Proof. unfold fuelled. destruct m; simpl; intros; auto. Qed.

Lemma M_bind_fuelled {A B} (f : A → M B) (m : M A) pos :
  fuelled (m pos) → (∀ a p, fuelled (f a p)) → fuelled ((m ≫= f) pos).
Proof.
  unfold fuelled, mbind, M_mbind, M_bind.
  destruct (m pos) as [[a p]| |]; intros; auto.
Qed.

Lemma lift_fuelled {A} (r : result A) pos : fuelled r → fuelled (lift r pos).
Proof. unfold lift. by destruct r. Qed.

Lemma getitem_fuelled {A} (l : list A) i : fuelled (getitem l i).
Proof. unfold getitem. cbv zeta. by repeat case_match. Qed.

Lemma subscript_fuelled sol i : fuelled (subscript sol i).
Proof. unfold subscript. by repeat case_match. Qed.

Lemma randrange_fuelled stop pos : fuelled (randrange stop pos).
Proof. unfold randrange. by case_match. Qed.

Lemma for_each_fuelled {A T} (body : T → A → result T) l s :
  (∀ s x, fuelled (body s x)) → fuelled (for_each body l s).
Proof.
  intros Hbody. revert s. induction l as [|x l IH]; intros s; simpl; [done|].
  by apply bind_fuelled.
Qed.

Lemma adjacent_fuelled i j : fuelled (adjacent i j).
Proof.
  unfold adjacent. apply bind_fuelled; [apply getitem_fuelled|].
  intros row. apply bind_fuelled; [apply getitem_fuelled|done].
Qed.

Lemma evaluate_fuelled sol : fuelled (evaluate sol).
Proof.
  unfold evaluate. cbv zeta. apply for_each_fuelled. intros acc i.
  apply for_each_fuelled. intros acc' j. unfold scan_pair.
  apply bind_fuelled; [apply adjacent_fuelled|]. intros [|]; [|done].
  apply bind_fuelled; [apply subscript_fuelled|]. intros ci.
  apply bind_fuelled; [apply subscript_fuelled|]. intros cj.
  by destruct (decide _).
Qed.

Lemma count_conflicts_fuelled sol : fuelled (count_conflicts sol).
Proof.
  rewrite count_conflicts_evaluate.
  apply bind_fuelled; [apply evaluate_fuelled|done].
Qed.

Lemma attempt_fuelled sol count cands st pos :
  fuelled (attempt sol count cands st pos).
Proof.
  unfold attempt.
  apply M_bind_fuelled; [apply randrange_fuelled|]. intros r p1.
  apply M_bind_fuelled; [apply lift_fuelled, getitem_fuelled|]. intros nd p2.
  apply M_bind_fuelled; [apply randrange_fuelled|]. intros d p3.
  apply M_bind_fuelled; [apply lift_fuelled, getitem_fuelled|]. intros c p4.
  apply M_bind_fuelled; [apply lift_fuelled, subscript_fuelled|].
  intros cur p5.
  apply M_bind_fuelled.
  { apply lift_fuelled. unfold substitute.
    destruct (decide _); [apply getitem_fuelled|done]. }
  intros nc p6.
  apply M_bind_fuelled; [apply lift_fuelled; by destruct sol|]. intros m p7.
  apply M_bind_fuelled; [apply lift_fuelled, count_conflicts_fuelled|].
  intros new p8. by destruct (accept _ _ _ _ _) as [[??]?].
Qed.

Lemma sample_fuelled sol count cands n st pos :
  fuelled (sample sol count cands n st pos).
Proof.
  revert st pos. induction n as [|n IH]; intros st pos; simpl; [done|].
  apply M_bind_fuelled; [apply attempt_fuelled|].
  intros [[|] s] p; [done|apply IH].
Qed.

Lemma iteration_fuelled st pos : fuelled (iteration st pos).
Proof.
  unfold iteration.
  apply M_bind_fuelled; [apply lift_fuelled, evaluate_fuelled|].
  intros [cands count] p. destruct (decide _); [done|].
  apply M_bind_fuelled; [apply sample_fuelled|]. intros s p1.
  apply M_bind_fuelled; [apply lift_fuelled; by destruct (s_node s)|].
  intros nd p2.
  apply M_bind_fuelled; [apply lift_fuelled, subscript_fuelled|done].
Qed.

Lemma random_solution_fuelled nodes m pos :
  fuelled (random_solution nodes m pos).
Proof.
  revert m pos. induction nodes as [|i nodes IH]; intros m pos; simpl; [done|].
  apply M_bind_fuelled; [apply randrange_fuelled|]. intros d p1.
  apply M_bind_fuelled; [apply lift_fuelled, getitem_fuelled|]. intros c p2.
  apply IH.
Qed.

Lemma iteration_iterations st pos st' pos' :
  iteration st pos = Ok (Next, st', pos') →
  iterations st' = iterations st + 1.
Proof.
  rewrite iteration_Ok. intros (cands & count & _ & [(? & _)|H]); [done|].
  by destruct H as (_ & _ & s & nd & old & _ & _ & _ & ->).
Qed.

Lemma search_fuelled fuel st pos :
  (Z.to_nat (max_iterations - iterations st) ≤ fuel)%nat →
  fuelled (search fuel st pos).
Proof.
  revert st pos. induction fuel as [|fuel IH]; intros st pos Hfuel; simpl.
  - destruct (Z.ltb_spec (iterations st) max_iterations); [lia|done].
  - destruct (Z.ltb_spec (iterations st) max_iterations); [|done].
    unfold mbind, M_mbind, M_bind.
    pose proof (iteration_fuelled st pos) as Hit.
    destruct (iteration st pos) as [[[[|] st1] p1]| |] eqn:E; try done.
    apply IH. apply iteration_iterations in E. lia.
Qed.

(** [run] gives the loop as much fuel as it can use. *)
Lemma run_has_fuel : fuelled run.
Proof.
  unfold run. unfold mbind, M_mbind, M_bind.
  pose proof (random_solution_fuelled (range 0 (length graph)) ∅ O) as Hinit.
  destruct (initial O) as [[st p]| |] eqn:E.
  - apply search_fuelled.
    apply initial_Ok in E as (m & -> & _). simpl. lia.
  - done.
  - unfold initial, mbind, M_mbind, M_bind in E.
    by destruct (random_solution _ _ _) as [[??]| |].
Qed.

Lemma tabucol_has_fuel : fuelled tabucol.
Proof.
  unfold tabucol. apply bind_fuelled; [apply run_has_fuel|].
  intros [[fl st] pos]. unfold verdict.
  apply bind_fuelled; [by destruct (conflict_count st)|].
  intros count. by destruct (decide _).
Qed.

(** ** Outcomes of a run *)

(** A coloring is returned only after an evaluation of it that counted
    no conflict. *)
Lemma tabucol_Some m :
  tabucol = Ok (Some m) →
  (∃ cands, evaluate (Some m) = Ok (cands, 0)) ∧ palette m.
Proof.
  intros (fl & st & pos & Hrun & Hv)%tabucol_Ok.
  apply verdict_Ok in Hv as (count & Hcount & Hm).
  destruct (decide (count ≠ 0)) as [|Hz%dec_stable]; [done|]. subst count.
  apply run_Ok in Hrun. destruct fl.
  - destruct Hrun as (st0 & pos0 & Hst0%reachable_at_head & _ & Hit).
    apply iteration_Ok in Hit
      as (cands & count & Hev & [(_ & -> & _ & ->)|(? & _)]); [|done].
    simpl in Hm. rewrite <-Hm in *. split; [eauto|].
    destruct Hst0 as (_ & _ & Hpal & _). by apply Hpal.
  - destruct Hrun as [(_ & Hcc & _)%reachable_at_head _].
    rewrite Hcount in Hcc. destruct (decide _); [done|].
    destruct Hcc as (c & [= <-] & ?). lia.
Qed.

(** C1 (validity on success): whenever [tabucol] returns a coloring,
    that coloring is proper -- the two ends of every pair [i < j] with
    [graph[i][j] > 0] carry different colors -- and every color it
    assigns lies in [[0, k)]. *)
Theorem validity_on_success m :
  tabucol = Ok (Some m) → proper m ∧ palette m.
Proof.
  intros [[cands Hev] Hpal]%tabucol_Some. split; [|done].
  by eapply evaluate_proper.
Qed.

(** [None] is returned only when the loop is left because its condition
    fails. *)
Lemma tabucol_None :
  tabucol = Ok None → ∃ st pos, run = Ok (Next, st, pos).
Proof.
  intros (fl & st & pos & Hrun & Hv)%tabucol_Ok.
  destruct fl; [exfalso|eauto].
  apply verdict_Ok in Hv as (count & Hcount & Hnone).
  apply run_Ok in Hrun as (st0 & pos0 & Hst0%reachable_at_head & _ & Hit).
  destruct Hst0 as (_ & _ & _ & _ & [m Hm] & _).
  apply iteration_Ok in Hit
    as (cands & c & _ & [(_ & _ & _ & ->)|(? & _)]); [|done].
  simpl in *. injection Hcount as <-. rewrite Hm in Hnone.
  by destruct (decide (0 ≠ 0)).
Qed.

(** C2 (failure is well-formed): with an iteration budget of at least
    one, when the loop is left because its condition fails [tabucol]
    returns [None], the iteration counter equals [max_iterations] and the
    conflict count is strictly positive; and [None] is returned in no
    other way. *)
Theorem failure_well_formed :
  1 ≤ max_iterations →
  (∀ st pos,
      run = Ok (Next, st, pos) →
      tabucol = Ok None ∧
      iterations st = max_iterations ∧
      ∃ count, conflict_count st = Some count ∧ 0 < count) ∧
  (tabucol = Ok None → ∃ st pos, run = Ok (Next, st, pos)).
Proof.
  intros Hmax. split; [|apply tabucol_None].
  intros st pos Hrun.
  destruct (run_Ok _ _ _ Hrun) as [(Hit & Hcc & _)%reachable_at_head Hge].
  destruct (decide (iterations st = 0)); [lia|].
  destruct Hcc as (count & Hcount & Hpos).
  split_and!; [|lia|eauto].
  apply tabucol_Ok. exists Next, st, pos. split; [done|].
  apply verdict_Ok. exists count. split; [done|].
  destruct (decide (count ≠ 0)); [done|lia].
Qed.

(** ** The tabu list *)

Lemma attempt_tabu_length sol count cands s p fl s' p' :
  attempt sol count cands s p = Ok (fl, s', p') →
  (length (s_tabu s') ≤ length (s_tabu s))%nat.
Proof.
  rewrite attempt_Ok.
  intros (r & nd & d & c & m & cur & nc & new & _ & _ & _ & _ & _ &
          _ & _ & _ & _ & Hacc%accept_tabu_length & _).
  done.
Qed.

Lemma sampled_tabu_length sol count cands n s pos s1 pos1 :
  sampled sol count cands n s pos s1 pos1 →
  (length (s_tabu s1) ≤ length (s_tabu s))%nat.
Proof.
  induction 1 as [|n s pos s1 pos1 s2 pos2 _ IH Hatt]; [done|].
  apply attempt_tabu_length in Hatt. lia.
Qed.

(** [push] is first in, first out. *)
Lemma push_fifo m t :
  1 ≤ tabu_size → len t ≤ tabu_size →
  push m t = if decide (len t = tabu_size) then tail t ++ [m] else t ++ [m].
Proof.
  unfold push, popleft, len. cbv zeta. rewrite length_app. simpl.
  intros Hsize Ht.
  destruct (Z.ltb_spec tabu_size (Z.of_nat (length t + 1)));
    destruct (decide _); try lia; [|done].
  destruct t; simpl in *; [lia|done].
Qed.

Lemma run_final fl st pos :
  run = Ok (fl, st, pos) → len (tabu st) ≤ Z.max 0 tabu_size.
Proof.
  intros Hrun%run_Ok. destruct fl.
  - destruct Hrun
      as (st0 & pos0 & (_ & _ & _ & Ht & _)%reachable_at_head & _ & Hit).
    apply iteration_Ok in Hit
      as (cands & count & Hev & [(_ & -> & _ & ->)|(? & _)]); done.
  - by destruct Hrun as [(_ & _ & _ & Ht & _)%reachable_at_head _].
Qed.

(** C5 (tabu list bound): with [tabu_size ≥ 1], the tabu list has at
    most [tabu_size] entries each time the loop condition is tested
    (hence after every push), after every attempt of every iteration
    (hence after every aspiration override, which removes an entry), and
    when the run ends; a push appends at the end and, on a full list,
    drops the entry at the front, the oldest. *)
Theorem tabu_list_bound :
  1 ≤ tabu_size →
  (∀ st pos, reachable st pos → len (tabu st) ≤ tabu_size) ∧
  (∀ st pos count cands n s1 pos1 fl s2 pos2,
      reachable st pos →
      sampled (solution st) count cands n
              (Sampler (node st) None (tabu st) (aspiration_level st)) pos
              s1 pos1 →
      attempt (solution st) count cands s1 pos1 = Ok (fl, s2, pos2) →
      len (s_tabu s2) ≤ tabu_size) ∧
  (∀ fl st pos, run = Ok (fl, st, pos) → len (tabu st) ≤ tabu_size) ∧
  (∀ m t, len t ≤ tabu_size →
          len (push m t) ≤ tabu_size ∧
          push m t =
            if decide (len t = tabu_size) then tail t ++ [m] else t ++ [m]).
Proof.
  intros Hsize. split_and!.
  - intros st pos (_ & _ & _ & Ht & _)%reachable_at_head. lia.
  - intros st pos count cands n s1 pos1 fl s2 pos2
      (_ & _ & _ & Ht & _)%reachable_at_head Hs%sampled_tabu_length
      Hatt%attempt_tabu_length.
    simpl in Hs. unfold len in *. lia.
  - intros fl st pos Hrun%run_final. lia.
  - intros m t Ht. split; [|by apply push_fifo].
    pose proof (push_length m t). lia.
Qed.

(** ** The aspiration table *)

Lemma setdefault_improves asp z a asp1 :
  setdefault asp z (z - 1) = (a, asp1) → improves asp asp1.
Proof.
  intros (Ha & Hother & Hold)%setdefault_lookup z' v Hz'.
  destruct (decide (z' = z)) as [->|Hne].
  - rewrite Hz' in Hold. destruct Hold as [-> ->]. eauto with lia.
  - rewrite Hother by done. eauto with lia.
Qed.

Lemma attempt_improves sol count cands s p fl s' p' :
  attempt sol count cands s p = Ok (fl, s', p') →
  improves (s_aspiration s) (s_aspiration s').
Proof.
  rewrite attempt_Ok.
  intros (r & nd & d & c & m & cur & nc & new & _ & _ & _ & _ & _ &
          _ & _ & _ & _ & Hacc%accept_improves & _).
  done.
Qed.

Lemma iteration_improves st pos fl st' pos' :
  iteration st pos = Ok (fl, st', pos') →
  improves (aspiration_level st) (aspiration_level st').
Proof.
  rewrite iteration_Ok.
  intros (cands & count & Hev &
          [(_ & _ & _ & ->)|(_ & _ & s & nd & old & Hs & _ & _ & ->)]).
  - apply improves_refl.
  - by apply sample_improves in Hs.
Qed.

Lemma search_improves fuel st pos fl st' pos' :
  search fuel st pos = Ok (fl, st', pos') →
  improves (aspiration_level st) (aspiration_level st').
Proof.
  revert st pos. induction fuel as [|fuel IH]; intros st pos H; simpl in H.
  - destruct (_ <? _); [done|].
    apply mret_Ok in H as [? ->]. simplify_eq. apply improves_refl.
  - destruct (_ <? _).
    + apply M_bind_Ok in H as ([fl1 st1] & p1 & Hit%iteration_improves & H).
      destruct fl1.
      * apply mret_Ok in H as [? ->]. by simplify_eq.
      * eapply improves_trans; eauto.
    + apply mret_Ok in H as [? ->]. simplify_eq. apply improves_refl.
Qed.

(** C6 (aspiration table monotonicity): the entry of a conflict level
    [z] is created as [z - 1] by the first [setdefault] on [z]; the only
    other write stores [new - 1] under the current conflict count, and
    only when [new] is at most the entry then stored; so every write
    leaves each entry at most what it was, and so do every attempt, every
    iteration and the whole search. *)
Theorem aspiration_monotone :
  (∀ asp z a asp1,
      setdefault asp z (z - 1) = (a, asp1) →
      asp1 !! z = Some a ∧
      (asp !! z = None → a = z - 1) ∧
      (∀ v, asp !! z = Some v → a = v ∧ asp1 = asp) ∧
      improves asp asp1) ∧
  (∀ count new m t asp fl t' asp',
      accept count new m t asp = (fl, t', asp') →
      asp' = asp ∨
      ∃ a asp1, setdefault asp count (count - 1) = (a, asp1) ∧
                new ≤ a ∧
                asp' = <[count:=new - 1]> asp1 ∧
                improves asp1 asp') ∧
  (∀ sol count cands s p fl s' p',
      attempt sol count cands s p = Ok (fl, s', p') →
      improves (s_aspiration s) (s_aspiration s')) ∧
  (∀ st pos fl st' pos',
      iteration st pos = Ok (fl, st', pos') →
      improves (aspiration_level st) (aspiration_level st')) ∧
  (∀ fuel st pos fl st' pos',
      search fuel st pos = Ok (fl, st', pos') →
      improves (aspiration_level st) (aspiration_level st')).
Proof.
  split_and!.
  - intros asp z a asp1 Hsd. pose proof (setdefault_improves _ _ _ _ Hsd).
    apply setdefault_lookup in Hsd as (Ha & _ & Hold).
    split_and!; try done.
    + intros Hz. by rewrite Hz in Hold.
    + intros v Hz. by rewrite Hz in Hold.
  - intros count new m t asp fl t' asp' [H|[H|H]]%accept_cases.
    + left. by destruct H as (_ & _ & _ & ->).
    + right. destruct H as (a & asp1 & Hlt & Hsd & Hle & _ & -> & _).
      exists a, asp1. split_and!; try done.
      apply setdefault_lookup in Hsd as (Ha & _ & _).
      intros z v Hz. destruct (decide (z = count)) as [->|Hne].
      * rewrite lookup_insert_eq. exists (new - 1). split; [done|].
        rewrite Ha in Hz. simplify_eq. lia.
      * rewrite lookup_insert_ne by done. eauto with lia.
    + left. by destruct H as (a & _ & _ & _ & _ & -> & _).
  - apply attempt_improves.
  - apply iteration_improves.
  - apply search_improves.
Qed.

(** ** Choosing the new color *)

Lemma draw_color cur d :
  0 ≤ d < number_of_colors - 1 →
  getitem colors d ≫= substitute cur =
  Ok (if decide (cur = d) then number_of_colors - 1 else d).
Proof.
  intros Hd. rewrite getitem_colors by lia. simpl. unfold substitute.
  destruct (decide _); [|done]. apply getitem_colors_last. lia.
Qed.

Lemma attempt_recolors sol count cands s p fl s' p' :
  attempt sol count cands s p = Ok (fl, s', p') →
  ∃ m nd cur nc,
    sol = Some m ∧ m !! nd = Some cur ∧
    s_node s' = Some nd ∧ s_new_solution s' = Some (<[nd:=nc]> m) ∧
    nc ≠ cur ∧ 0 ≤ nc < number_of_colors.
Proof.
  rewrite attempt_Ok.
  intros (r & nd & d & c & m & cur & nc & new & _ & _ & Hd & Hc & -> &
          Hcur & Hnc & _ & _ & _ & Hnode & Hsol).
  exists m, nd, cur, nc. split_and!; try done.
  - apply randrange_Ok in Hd as (Hd & _). rewrite len_colors in Hd.
    pose proof (draw_color cur d ltac:(lia)) as Hdraw.
    rewrite Hc in Hdraw. simpl in Hdraw. rewrite Hnc in Hdraw.
    destruct (decide _); simplify_eq; lia.
  - apply elem_of_colors. eapply substitute_elem_of; [|done].
    by eapply getitem_elem_of.
  - apply elem_of_colors. eapply substitute_elem_of; [|done].
    by eapply getitem_elem_of.
Qed.


(** ** Acceptance *)

Lemma accept_Next count new m t asp t' asp' :
  accept count new m t asp = (Next, t', asp') →
  t' = t ∧ asp' = asp ∧ (count ≤ new ∨ m ∈ t).
Proof.
  intros [H|[H|H]]%accept_cases.
  - destruct H as (? & _ & -> & ->). auto.
  - by destruct H as (a & asp1 & _ & _ & _ & ? & _).
  - destruct H as (a & _ & _ & _ & -> & -> & Hfl).
    destruct (decide (m ∈ t)); [auto|done].
Qed.

(** Rules 1a and 1c: an attempt is accepted when it lowers the conflict
    count and either is within the aspiration level or is not tabu. *)
Lemma accept_Break count new m t asp fl t' asp' :
  accept count new m t asp = (fl, t', asp') →
  fl = Break ↔
  new < count ∧ (new ≤ (setdefault asp count (count - 1)).1 ∨ m ∉ t).
Proof.
  intros [H|[H|H]]%accept_cases.
  - destruct H as (? & -> & _). split; [done|lia].
  - destruct H as (a & asp1 & ? & -> & ? & -> & _). simpl. tauto.
  - destruct H as (a & ? & -> & ? & _ & _ & ->). simpl.
    destruct (decide (m ∈ t)); split; try done; try tauto.
    intros [_ [?|?]]; [lia|done].
Qed.

Lemma sample_last sol count cands k s pos s1 pos1 fl s2 pos2 :
  sampled sol count cands k s pos s1 pos1 →
  attempt sol count cands s1 pos1 = Ok (fl, s2, pos2) →
  sample sol count cands (S k) s pos = Ok (s2, pos2).
Proof.
  intros Hs Hatt. replace (S k) with (k + 1)%nat by lia.
  rewrite (sample_sampled _ _ _ _ _ _ _ _ _ Hs). simpl.
  unfold mbind, M_mbind, M_bind. rewrite Hatt. by destruct fl.
Qed.

Lemma sample_first_break sol count cands n k s pos s1 pos1 s2 pos2 :
  (k < n)%nat →
  sampled sol count cands k s pos s1 pos1 →
  attempt sol count cands s1 pos1 = Ok (Break, s2, pos2) →
  sample sol count cands n s pos = Ok (s2, pos2).
Proof.
  intros Hk Hs Hatt. replace n with (k + S (n - S k))%nat by lia.
  rewrite (sample_sampled _ _ _ _ _ _ _ _ _ Hs). simpl.
  unfold mbind, M_mbind, M_bind. by rewrite Hatt.
Qed.

(** C8 (fallback acceptance): in an iteration that counts a conflict,
    an attempt is accepted exactly when it lowers the conflict count and
    is within the aspiration level or not tabu; sampling ends with the
    first attempt that is accepted, whatever the number of attempts
    left; when none of the [reps] attempts is accepted, the iteration
    moves to the solution of the last attempt and records that attempt's
    node with the color it had, although the attempt did not lower the
    conflict count or its move was tabu. *)
Theorem fallback_acceptance st pos cands count :
  evaluate (solution st) = Ok (cands, count) →
  0 < count →
  let start := Sampler (node st) None (tabu st) (aspiration_level st) in
  let attempts := sampled (solution st) count (list_of_set cands) in
  (∀ new m t asp fl t' asp',
      accept count new m t asp = (fl, t', asp') →
      fl = Break ↔
      new < count ∧ (new ≤ (setdefault asp count (count - 1)).1 ∨ m ∉ t)) ∧
  (∀ k s1 pos1 s2 pos2,
      (k < Z.to_nat reps)%nat →
      attempts k start pos s1 pos1 →
      attempt (solution st) count (list_of_set cands) s1 pos1
        = Ok (Break, s2, pos2) →
      sample (solution st) count (list_of_set cands) (Z.to_nat reps) start pos
        = Ok (s2, pos2)) ∧
  (∀ k s1 pos1 s2 pos2,
      Z.to_nat reps = S k →
      attempts k start pos s1 pos1 →
      attempt (solution st) count (list_of_set cands) s1 pos1
        = Ok (Next, s2, pos2) →
      ∃ m nd old new conflicts,
        solution st = Some m ∧ m !! nd = Some old ∧
        s_node s2 = Some nd ∧
        s_new_solution s2 = Some (<[nd:=new]> m) ∧
        count_conflicts (Some (<[nd:=new]> m)) = Ok conflicts ∧
        (count ≤ conflicts ∨ (nd, new) ∈ s_tabu s1) ∧
        iteration st pos =
          Ok (Next,
              Locals (iterations st + 1) (push (nd, old) (s_tabu s1))
                     (Some (<[nd:=new]> m)) (s_aspiration s1)
                     (Some count) (Some nd),
              pos2)).
Proof.
  intros Hev Hcount start attempts. split_and!.
  - intros. by eapply accept_Break.
  - intros k s1 pos1 s2 pos2 Hk Hs Hatt. by eapply sample_first_break.
  - intros k s1 pos1 s2 pos2 Hreps Hs Hatt.
    pose proof (sample_last _ _ _ _ _ _ _ _ _ _ _ Hs Hatt) as Hsample.
    apply attempt_Ok in Hatt
      as (r & nd & d & c & m & cur & nc & new & _ & _ & _ & _ & Hsol &
          Hcur & _ & Hnew & _ & Hacc & Hnode & Hnsol).
    apply accept_Next in Hacc as (Ht & Hasp & Hwhy).
    exists m, nd, cur, nc, new. split_and!; try done.
    apply iteration_Ok. exists cands, count. split; [done|]. right.
    split_and!; [done|lia|]. exists s2, nd, cur.
    rewrite Hreps. split_and!; try done.
    + rewrite Hsol. simpl. by rewrite Hcur.
    + by rewrite Hnsol, Ht, Hasp.
Qed.

(** The count an iteration leaves in [conflict_count] is that of the
    solution it started from. *)
Lemma iteration_conflict_count st pos fl st' pos' :
  iteration st pos = Ok (fl, st', pos') →
  ∃ cands count,
    evaluate (solution st) = Ok (cands, count) ∧
    conflict_count st' = Some count ∧
    (fl = Next ↔ count ≠ 0).
Proof.
  rewrite iteration_Ok.
  intros (cands & count & Hev &
          [(-> & -> & _ & ->)|(-> & ? & s & nd & old & _ & _ & _ & ->)]);
    exists cands; eexists; (split_and!; [done|done|]); split; done.
Qed.

(** When the loop is left because its condition fails, [None] is
    returned, whatever the solution then is. *)
Lemma exhausted_returns_None st pos :
  1 ≤ max_iterations → run = Ok (Next, st, pos) → tabucol = Ok None.
Proof.
  intros Hmax Hrun.
  destruct (run_Ok _ _ _ Hrun) as [(Hit & Hcc & _)%reachable_at_head Hge].
  destruct (decide (iterations st = 0)); [lia|].
  destruct Hcc as (count & Hcount & Hpos).
  apply tabucol_Ok. exists Next, st, pos. split; [done|].
  apply verdict_Ok. exists count. split; [done|].
  destruct (decide (count ≠ 0)); [done|lia].
Qed.

(** ** Inputs on which nothing is raised before sampling *)

Lemma random_solution_total nodes m pos :
  1 ≤ number_of_colors →
  ∃ m', random_solution nodes m pos = Ok (m', (pos + length nodes)%nat) ∧
        ∀ i, is_Some (m !! i) ∨ i ∈ nodes → is_Some (m' !! i).
Proof.
  intros Hk. revert m pos.
  induction nodes as [|i nodes IH]; intros m pos; simpl.
  - exists m. rewrite Nat.add_0_r. split; [done|].
    intros i [?|?%elem_of_nil]; done.
  - unfold mbind, M_mbind, M_bind.
    rewrite randrange_pos by (rewrite len_colors; lia).
    destruct (getitem_in_range colors (draw rng pos `mod` len colors))
      as [c Hc].
    { apply Z.mod_pos_bound. rewrite len_colors. lia. }
    unfold lift. rewrite Hc.
    destruct (IH (<[i:=c]> m) (S pos)) as (m' & Hm' & Hdom).
    exists m'. replace (pos + S (length nodes))%nat
      with (S pos + length nodes)%nat by lia.
    split; [done|]. intros i' Hi'. apply Hdom.
    rewrite lookup_insert. destruct (decide (i = i')); [left; eauto|].
    destruct Hi' as [?|Hi']; [by left|]. right.
    apply elem_of_cons in Hi' as [?|?]; done.
Qed.

Lemma initial_total :
  1 ≤ number_of_colors →
  ∃ m, initial O = Ok (Locals 0 [] (Some m) ∅ None None, length graph) ∧
       total m ∧ palette m.
Proof.
  intros Hk.
  destruct (random_solution_total (range 0 (length graph)) ∅ O Hk)
    as (m & Hm & Hdom).
  exists m. split_and!.
  - unfold initial, mbind, M_mbind, M_bind. rewrite Hm.
    unfold range. by rewrite length_seq, Nat.sub_0_r.
  - intros i Hi. apply Hdom. right. apply elem_of_range. lia.
  - eapply random_solution_Ok; [done|]. intros i c. by rewrite lookup_empty.
Qed.

Lemma adjacent_total i j :
  square → (i < length graph)%nat → (j < length graph)%nat →
  ∃ adj, adjacent i j = Ok adj.
Proof.
  intros Hsq Hi Hj. unfold adjacent. rewrite getitem_nat.
  destruct (lookup_lt_is_Some_2 graph i Hi) as [row Hrow]. rewrite Hrow.
  simpl. rewrite getitem_nat.
  destruct (lookup_lt_is_Some_2 row j) as [x ->]; [|by eexists].
  rewrite (Hsq row); [done|]. by eapply list_elem_of_lookup_2.
Qed.

Lemma evaluate_total m :
  square → total m → ∃ cands count, evaluate (Some m) = Ok (cands, count).
Proof.
  intros Hsq Hm. rewrite evaluate_pairs.
  destruct (for_each_total (λ _, True)
              (λ acc p, scan_pair (Some m) p.1 acc p.2)
              (pairs (length graph)) (∅, 0) I) as ([cands count] & ? & _);
    [|eauto].
  intros acc [i j] _ Hij%elem_of_pairs. simpl.
  destruct (scans_scan_pair (Some m) i acc j) as [acc' ->]; [|eauto].
  destruct (adjacent_total i j Hsq) as [adj Hadj]; [lia..|].
  exists adj. split; [done|]. intros _.
  destruct (Hm i) as [ci Hci]; [lia|]. destruct (Hm j) as [cj Hcj]; [lia|].
  exists ci, cj. simpl. by rewrite Hci, Hcj.
Qed.

Lemma count_conflicts_total m :
  square → total m → ∃ count, count_conflicts (Some m) = Ok count.
Proof.
  intros Hsq Hm. rewrite count_conflicts_evaluate.
  destruct (evaluate_total m Hsq Hm) as (cands & count & ->). by eexists.
Qed.

Lemma list_of_set_elem_of (s : nodeset) x : x ∈ list_of_set s ↔ x ∈ s.
Proof. by rewrite list_of_set_perm, elem_of_remove_dups. Qed.

Lemma list_of_set_nonempty (s : nodeset) : s ≠ ∅ → 0 < len (list_of_set s).
Proof.
  intros Hs. unfold len.
  destruct (list_of_set s) as [|x l] eqn:E; simpl; [|lia].
  destruct Hs. apply nodeset_empty_iff. intros x.
  rewrite <-list_of_set_elem_of, E. apply not_elem_of_nil.
Qed.

(** ** A single color *)

(** With at most one color every attempt stops at line 47. *)
Lemma attempt_single_color sol count cands s pos :
  number_of_colors ≤ 1 → 0 < len cands →
  attempt sol count cands s pos = Raise ValueError.
Proof.
  intros Hk Hcands. unfold attempt, mbind, M_mbind, M_bind.
  rewrite randrange_pos by done.
  destruct (getitem_in_range cands (draw rng pos `mod` len cands))
    as [nd Hnd]; [by apply Z.mod_pos_bound|].
  unfold lift at 1. rewrite Hnd.
  rewrite randrange_empty; [done|]. rewrite len_colors. lia.
Qed.

Lemma iteration_single_color st pos cands count :
  number_of_colors ≤ 1 → 1 ≤ reps →
  evaluate (solution st) = Ok (cands, count) → count ≠ 0 →
  iteration st pos = Raise ValueError.
Proof.
  intros Hk Hreps Hev Hcount. unfold iteration.
  unfold mbind at 1, M_mbind, M_bind. unfold lift at 1. rewrite Hev.
  destruct (decide _); [done|].
  destruct (Z.to_nat reps) as [|passes] eqn:E; [lia|]. simpl.
  unfold mbind, M_mbind, M_bind.
  rewrite attempt_single_color; [done|done|].
  apply list_of_set_nonempty. apply evaluate_Ok in Hev as (_ & Hne & _).
  by apply Hne.
Qed.

(** With at most one color no head of the loop is reached but the
    first. *)
Lemma reachable_single_color st pos :
  number_of_colors ≤ 1 → reachable st pos → initial O = Ok (st, pos).
Proof.
  intros Hk. induction 1 as [|st pos st' pos' _ IH _ Hit]; [done|].
  exfalso. apply initial_Ok in IH as (m0 & -> & _).
  apply iteration_Ok in Hit
    as (cands & count & _ & [(? & _)|(_ & _ & s & nd & old & Hs & Hnd & _)]);
    [done|].
  apply sample_Ok in Hs
    as [(_ & -> & _)|(k & s1 & p1 & fl & _ & _ & Hatt & _)]; [done|].
  apply attempt_Ok in Hatt
    as (r & nd' & d & c & m & cur & nc & new & _ & _ & Hd & _).
  apply randrange_Ok in Hd as (Hd & _). rewrite len_colors in Hd. lia.
Qed.

Lemma single_color_never_None : number_of_colors ≤ 1 → tabucol ≠ Ok None.
Proof.
  intros Hk (fl & st & pos & Hrun & Hv)%tabucol_Ok.
  apply verdict_Ok in Hv as (count & Hcount & Hnone).
  apply run_Ok in Hrun. destruct fl.
  - destruct Hrun as (st0 & pos0 & Hst0 & _ & Hit).
    apply reachable_single_color, initial_Ok in Hst0 as (m & -> & _);
      [|done].
    apply iteration_Ok in Hit
      as (cands & c & _ & [(_ & _ & _ & ->)|(? & _)]); [|done].
    simpl in *. injection Hcount as <-. by destruct (decide (0 ≠ 0)).
  - destruct Hrun as [Hst _].
    apply reachable_single_color, initial_Ok in Hst as (m & -> & _); done.
Qed.

(** On a square matrix with an edge, a single color, and at least one
    attempt and one iteration allowed, the call ends in the
    [ValueError] of [randrange(0, 0)]. *)
Lemma single_color_ValueError i j :
  number_of_colors = 1 → 1 ≤ reps → 1 ≤ max_iterations →
  square → (i < j < length graph)%nat → adjacent i j = Ok true →
  tabucol = Raise ValueError.
Proof.
  intros Hk Hreps Hmax Hsq Hij Hadj.
  destruct initial_total as (m & Hinit & Hm & Hpal); [lia|].
  destruct (evaluate_total m Hsq Hm) as (cands & count & Hev).
  assert (0 < count) as Hcount.
  { apply (evaluate_conflict _ _ _ i j Hev Hij). split; [done|].
    destruct (Hm i) as [ci Hci]; [lia|]. destruct (Hm j) as [cj Hcj]; [lia|].
    pose proof (Hpal _ _ Hci). pose proof (Hpal _ _ Hcj).
    exists 0. simpl. rewrite Hci, Hcj. split; f_equal; lia. }
  unfold tabucol, run. unfold mbind at 2, M_mbind, M_bind. rewrite Hinit.
  destruct (Z.to_nat max_iterations) as [|fuel] eqn:E; [lia|]. simpl.
  destruct (Z.ltb_spec 0 max_iterations); [|lia].
  unfold mbind at 2, M_mbind, M_bind.
  rewrite (iteration_single_color _ _ cands count); try done; lia.
Qed.

(** C4 (boundary k = 1), as the code has it: with a single color and
    an edge in the graph, [tabucol] does not return [None]; it raises,
    and on a square matrix with at least one attempt and one iteration
    allowed what it raises is the [ValueError] of [randrange(0, 0)] at
    line 47. *)
Theorem single_color_with_edge i j :
  number_of_colors = 1 →
  (i < j < length graph)%nat → adjacent i j = Ok true →
  tabucol ≠ Ok None ∧
  (∃ e, tabucol = Raise e) ∧
  (square → 1 ≤ reps → 1 ≤ max_iterations → tabucol = Raise ValueError).
Proof.
  intros Hk Hij Hadj. split_and!.
  - apply single_color_never_None. lia.
  - destruct tabucol as [[m|]|e|] eqn:E.
    + exfalso. apply tabucol_Some in E as [[cands Hev] Hpal].
      pose proof (evaluate_proper _ _ Hev i j Hij Hadj)
        as (ci & cj & Hci & Hcj & Hne).
      pose proof (Hpal _ _ Hci). pose proof (Hpal _ _ Hcj). lia.
    + exfalso. revert E. apply single_color_never_None. lia.
    + eauto.
    + by destruct tabucol_has_fuel.
  - intros. by eapply single_color_ValueError.
Qed.

(** ** At least two colors: nothing is raised *)

Lemma total_insert m i c : total m → total (<[i:=c]> m).
Proof.
  intros Hm j Hj. rewrite lookup_insert.
  destruct (decide (i = j)); [eauto|by apply Hm].
Qed.

Lemma attempt_total m count cands s pos :
  2 ≤ number_of_colors → square → total m →
  0 < len cands → (∀ x, x ∈ cands → (x < length graph)%nat) →
  ∃ fl s', attempt (Some m) count cands s pos = Ok (fl, s', S (S pos)).
Proof.
  intros Hk Hsq Hm Hlen Hcands.
  destruct (getitem_in_range cands (draw rng pos `mod` len cands))
    as [nd Hnd]; [by apply Z.mod_pos_bound|].
  destruct (Hm nd) as [cur Hcur]; [by eapply Hcands, getitem_elem_of|].
  assert (0 < len colors - 1) as Hpos by (rewrite len_colors; lia).
  pose proof (Z.mod_pos_bound (draw rng (S pos)) _ Hpos) as Hd.
  rewrite len_colors in Hd at 3.
  set (d := draw rng (S pos) `mod` (len colors - 1)) in *.
  pose proof (draw_color cur d ltac:(lia)) as Hdraw.
  rewrite getitem_colors in Hdraw by lia. simpl in Hdraw.
  set (nc := if decide (cur = d) then number_of_colors - 1 else d) in *.
  destruct (count_conflicts_total (<[nd:=nc]> m) Hsq) as [new Hnew];
    [by apply total_insert|].
  destruct (accept count new (nd, nc) (s_tabu s) (s_aspiration s))
    as [[fl t'] asp'] eqn:Hacc.
  exists fl, (Sampler (Some nd) (Some (<[nd:=nc]> m)) t' asp').
  apply attempt_Ok. exists (draw rng pos `mod` len cands), nd, d, d, m, cur, nc, new.
  split_and!; try done.
  - by apply randrange_pos.
  - by apply randrange_pos.
  - apply getitem_colors. lia.
Qed.

Lemma sample_total m count cands n s pos :
  2 ≤ number_of_colors → square → total m →
  0 < len cands → (∀ x, x ∈ cands → (x < length graph)%nat) →
  ∃ s' pos', sample (Some m) count cands n s pos = Ok (s', pos').
Proof.
  intros Hk Hsq Hm Hlen Hcands. revert s pos.
  induction n as [|n IH]; intros s pos; simpl; [by eexists _, _|].
  destruct (attempt_total m count cands s pos) as (fl & s1 & Hatt);
    try done.
  unfold mbind, M_mbind, M_bind. rewrite Hatt.
  destruct fl; [by eexists _, _|apply IH].
Qed.

Lemma iteration_total st pos m :
  2 ≤ number_of_colors → 1 ≤ reps → square →
  solution st = Some m → total m →
  ∃ fl st' pos' m',
    iteration st pos = Ok (fl, st', pos') ∧
    solution st' = Some m' ∧ total m'.
Proof.
  intros Hk Hreps Hsq Hsol Hm.
  destruct (evaluate_total m Hsq Hm) as (cands & count & Hev).
  pose proof (evaluate_Ok _ _ _ Hev) as (_ & Hne & Hlt & _).
  destruct (decide (count = 0)) as [->|Hcount].
  { exists Break,
      (Locals (iterations st) (tabu st) (solution st) (aspiration_level st)
              (Some 0) (node st)), pos, m.
    split_and!; [|done..].
    apply iteration_Ok. exists cands, 0. rewrite Hsol. split; [done|].
    by left. }
  destruct (sample_total m count (list_of_set cands) (Z.to_nat reps)
              (Sampler (node st) None (tabu st) (aspiration_level st)) pos)
    as (s & pos' & Hs); try done.
  { by apply list_of_set_nonempty, Hne. }
  { intros x Hx%list_of_set_elem_of. by apply Hlt. }
  pose proof Hs as Hs'.
  apply sample_Ok in Hs'
    as [(? & _)|(k & s1 & p1 & fl & _ & _ & Hatt & _)]; [lia|].
  apply attempt_new_solution in Hatt
    as (m0 & nd & nc & [= <-] & _ & [old Hold] & _ & Hnode & Hnew).
  exists Next,
    (Locals (iterations st + 1) (push (nd, old) (s_tabu s))
            (s_new_solution s) (s_aspiration s) (Some count) (Some nd)),
    pos', (<[nd:=nc]> m).
  split_and!.
  - apply iteration_Ok. exists cands, count. rewrite Hsol.
    split; [done|]. right. split_and!; try done.
    exists s, nd, old. split_and!; try done. simpl. by rewrite Hold.
  - done.
  - by apply total_insert.
Qed.

Lemma search_total fuel st pos m :
  2 ≤ number_of_colors → 1 ≤ reps → square →
  solution st = Some m → total m →
  ∃ fl st' pos', search fuel st pos = Ok (fl, st', pos') ∨
                 search fuel st pos = OutOfFuel.
Proof.
  intros Hk Hreps Hsq. revert st pos m.
  induction fuel as [|fuel IH]; intros st pos m Hsol Hm; simpl.
  - destruct (_ <? _); [|by eexists Next, _, _; left].
    exists Next, st, pos. by right.
  - destruct (_ <? _); [|by eexists Next, _, _; left].
    destruct (iteration_total st pos m) as (fl & st1 & p1 & m1 & Hit & ? & ?);
      try done.
    unfold mbind, M_mbind, M_bind. rewrite Hit.
    destruct fl; [by eexists Break, _, _; left|]. by eapply IH.
Qed.

Lemma tabucol_total :
  2 ≤ number_of_colors → 1 ≤ reps → 1 ≤ max_iterations → square →
  ∃ r, tabucol = Ok r.
Proof.
  intros Hk Hreps Hmax Hsq.
  destruct initial_total as (m & Hinit & Hm & _); [lia|].
  destruct (search_total (Z.to_nat max_iterations)
              (Locals 0 [] (Some m) ∅ None None) (length graph) m)
    as (fl & st & pos & [Hs|Hs]); try done.
  - assert (run = Ok (fl, st, pos)) as Hrun.
    { unfold run, mbind, M_mbind, M_bind. by rewrite Hinit. }
    assert (∃ count, conflict_count st = Some count) as [count Hcount].
    { pose proof (run_Ok _ _ _ Hrun) as H. destruct fl.
      - destruct H as (st0 & pos0 & _ & _ & Hit).
        apply iteration_conflict_count in Hit as (? & ? & _ & ? & _). eauto.
      - destruct H as [(Hit & Hcc & _)%reachable_at_head Hge].
        destruct (decide (iterations st = 0)); [lia|].
        destruct Hcc as (? & ? & _). eauto. }
    eexists. apply tabucol_Ok. exists fl, st, pos. split; [done|].
    apply verdict_Ok. eauto.
  - exfalso. apply run_has_fuel.
    unfold run, mbind, M_mbind, M_bind. by rewrite Hinit.
Qed.

(** On a square matrix, with at least two colors, one attempt per
    iteration and one iteration, [tabucol] returns. *)
Theorem tabucol_returns :
  2 ≤ number_of_colors → 1 ≤ reps → 1 ≤ max_iterations → square →
  ∃ r, tabucol = Ok r.
Proof. apply tabucol_total. Qed.


(** ** The conflict evaluator, exactly *)

Lemma conflictb_conflicting sol i j :
  conflictb sol i j = true ↔ conflicting sol i j.
Proof.
  unfold conflictb, conflicting.
  destruct (adjacent i j) as [[]| |]; try (split; [done|by intros [? _]]).
  destruct (subscript sol i) as [ci| |];
    try (split; [done|by intros (_ & ? & ? & _)]).
  destruct (subscript sol j) as [cj| |];
    try (split; [done|by intros (_ & ? & _ & ?)]).
  rewrite bool_decide_eq_true. split.
  - intros ->. eauto.
  - intros (_ & c & ? & ?). congruence.
Qed.

Lemma evaluate_exact sol cands count :
  evaluate sol = Ok (cands, count) →
  count = Z.of_nat (length (filter (λ p, conflictb sol p.1 p.2 = true)
                                   (pairs (length graph)))) ∧
  ∀ x, x ∈ cands ↔
       ∃ i j, (i < j < length graph)%nat ∧ conflicting sol i j ∧
              (x = i ∨ x = j).
Proof.
  rewrite evaluate_pairs. intros Hrun.
  pose (I := λ (pre : list (nat * nat)) (acc : nodeset * Z),
          acc.2 = Z.of_nat (length (filter (λ p, conflictb sol p.1 p.2 = true)
                                           pre)) ∧
          ∀ x, x ∈ acc.1 ↔
               ∃ p, p ∈ pre ∧ conflicting sol p.1 p.2 ∧
                    (x = p.1 ∨ x = p.2)).
  assert (I (pairs (length graph)) (cands, count)) as [Hcount Hcands].
  { apply (for_each_inv I _ _ _ _ Hrun).
    - split; [done|]. intros x. simpl. split.
      + by intros ?%not_elem_of_nodeset_empty.
      + by intros (p & ?%elem_of_nil & _).
    - intros pre [i j] s1 s2 [Hc Hx] _ Hstep. simpl in Hstep.
      apply scan_pair_Ok in Hstep as [[Hij ->]|[Hij ->]]; unfold I; simpl;
        rewrite filter_app, length_app, filter_cons; simpl.
      + rewrite decide_True by by apply conflictb_conflicting.
        split; [simpl; lia|].
        intros x. rewrite !elem_of_add, Hx. split.
        * intros [->|[->|(p & Hp & ? & ?)]].
          -- exists (i, j). rewrite elem_of_app, list_elem_of_singleton. auto.
          -- exists (i, j). rewrite elem_of_app, list_elem_of_singleton. auto.
          -- exists p. rewrite elem_of_app. auto.
        * intros (p & [Hp| ->%list_elem_of_singleton]%elem_of_app & ? & Hxp).
          -- right. right. eauto.
          -- simpl in Hxp. destruct Hxp; auto.
      + rewrite decide_False by by rewrite conflictb_conflicting.
        split; [simpl; lia|].
        intros x. rewrite Hx. split.
        * intros (p & Hp & ? & ?). exists p. rewrite elem_of_app. auto.
        * intros (p & [Hp| ->%list_elem_of_singleton]%elem_of_app & ? & Hxp);
            [eauto|done]. }
  simpl in *. split; [done|]. intros x. rewrite Hcands. split.
  - intros ([i j] & Hp%elem_of_pairs & ? & ?). eauto.
  - intros (i & j & Hij%elem_of_pairs & ? & ?). by exists (i, j).
Qed.

Lemma evaluate_empty sol cands count :
  evaluate sol = Ok (cands, count) → count = 0 ↔ cands = ∅.
Proof.
  intros Hev. pose proof (evaluate_exact _ _ _ Hev) as [_ Hcands].
  pose proof (evaluate_Ok _ _ _ Hev) as (_ & Hne & _ & _ & Hno). split.
  - intros Hz. apply nodeset_empty_iff. intros x.
    rewrite Hcands. intros (i & j & Hij & Hc & _). by apply (Hno Hz i j).
  - intros ->. destruct (decide (count = 0)); [done|]. by destruct Hne.
Qed.

(** The conflict count is the number of pairs [i < j] that are joined
    and colored alike, and the candidates are the ends of those pairs. *)
Theorem evaluator_contract sol cands count :
  evaluate sol = Ok (cands, count) →
  count = Z.of_nat (length (filter (λ p, conflictb sol p.1 p.2 = true)
                                   (pairs (length graph)))) ∧
  (∀ i j, (i, j) ∈ pairs (length graph) ↔ (i < j < length graph)%nat) ∧
  (∀ i j, conflictb sol i j = true ↔ conflicting sol i j) ∧
  (∀ x, x ∈ cands ↔
        ∃ i j, (i < j < length graph)%nat ∧ conflicting sol i j ∧
               (x = i ∨ x = j)) ∧
  (count = 0 ↔ cands = ∅).
Proof.
  intros Hev. pose proof (evaluate_exact _ _ _ Hev) as [Hcount Hcands].
  split_and!; try done.
  - intros. apply elem_of_pairs.
  - apply conflictb_conflicting.
  - by eapply evaluate_empty.
Qed.

(** The counting loop of lines 56-60 returns what the evaluating loop
    of lines 27-33 counts, and raises what it raises. *)
Theorem counting_loops_agree sol :
  count_conflicts sol = evaluate sol ≫= (λ acc, Ok acc.2).
Proof. apply count_conflicts_evaluate. Qed.


(** ** The keys of the solution *)

Lemma random_solution_keys nodes m pos m' pos' :
  random_solution nodes m pos = Ok (m', pos') →
  pos' = (pos + length nodes)%nat ∧
  ∀ i, is_Some (m' !! i) ↔ is_Some (m !! i) ∨ i ∈ nodes.
Proof.
  revert m pos. induction nodes as [|i nodes IH]; intros m pos H; simpl in H.
  - apply mret_Ok in H as [-> ->]. split; [simpl; lia|].
    intros i. split; [auto|]. by intros [?|?%elem_of_nil].
  - apply M_bind_Ok in H as (d & p1 & Hd & H).
    apply randrange_Ok in Hd as (_ & _ & ->).
    apply M_bind_Ok in H as (c & p & [Hc ->]%lift_Ok & H).
    apply IH in H as [-> Hkeys]. split; [simpl; lia|].
    intros i'. rewrite Hkeys, lookup_insert, elem_of_cons.
    destruct (decide (i = i')) as [->|Hne]; [split; [auto|eauto]|].
    split; [intros [?|?]; auto|intros [?|[?|?]]; auto]. congruence.
Qed.

Lemma initial_keys st pos :
  initial O = Ok (st, pos) →
  pos = length graph ∧ ∃ m, solution st = Some m ∧ keyed m.
Proof.
  unfold initial. intros H.
  apply M_bind_Ok in H as (m & p & Hm & H).
  apply mret_Ok in H as [-> ->].
  apply random_solution_keys in Hm as [-> Hkeys].
  unfold range. rewrite length_seq, Nat.sub_0_r. split; [done|].
  exists m. split; [done|]. intros i. rewrite Hkeys, lookup_empty.
  rewrite elem_of_range. split.
  - intros [[? [=]]|?]. lia.
  - intros ?. right. lia.
Qed.

Lemma keyed_insert m i c : keyed m → is_Some (m !! i) → keyed (<[i:=c]> m).
Proof.
  intros Hm Hi j. rewrite lookup_insert.
  destruct (decide (i = j)) as [<-|]; [|apply Hm].
  split; [intros _; by apply Hm|eauto].
Qed.

Lemma reachable_keyed st pos :
  reachable st pos → ∃ m, solution st = Some m ∧ keyed m.
Proof.
  induction 1 as [st pos Hinit|st pos st' pos' Hst (m & Hsol & Hm) _ Hit].
  - by apply initial_keys in Hinit as [_ ?].
  - apply reachable_at_head in Hst as (_ & _ & _ & _ & _ & Hnode).
    apply iteration_Ok in Hit
      as (cands & count & _ & [(? & _)|(_ & _ & s & nd & old & Hs & Hnd & _ & ->)]);
      [done|].
    simpl. apply sample_Ok in Hs
      as [(Hz & -> & _)|(k & s1 & p1 & fl & _ & _ & Hatt & _)].
    + simpl in Hnd. rewrite Hnd in Hnode. specialize (Hnode ltac:(eauto)). lia.
    + apply attempt_new_solution in Hatt
        as (m0 & nd' & nc & Hm0 & _ & ? & _ & _ & ->).
      rewrite Hsol in Hm0. injection Hm0 as <-.
      eexists. split; [done|]. by apply keyed_insert.
Qed.

Lemma tabucol_keyed m : tabucol = Ok (Some m) → keyed m.
Proof.
  intros (fl & st & pos & Hrun & Hv)%tabucol_Ok.
  apply verdict_Ok in Hv as (count & Hcount & Hm).
  destruct (decide (count ≠ 0)); [done|].
  apply run_Ok in Hrun. destruct fl.
  - destruct Hrun as (st0 & pos0 & (m0 & Hsol & Hkeys)%reachable_keyed & _ & Hit).
    apply iteration_Ok in Hit
      as (cands & c & _ & [(_ & _ & _ & ->)|(? & _)]); [|done].
    simpl in Hm. rewrite Hsol in Hm. by injection Hm as ->.
  - destruct Hrun as [(m0 & Hsol & Hkeys)%reachable_keyed _].
    rewrite Hsol in Hm. by injection Hm as ->.
Qed.

(** A returned coloring has exactly the node indices as keys. *)
Theorem returned_keys m :
  tabucol = Ok (Some m) → ∀ i, is_Some (m !! i) ↔ (i < length graph)%nat.
Proof. apply tabucol_keyed. Qed.

(** ** Inputs outside the domain *)

(** Without a color the first [randrange] of line 18 has an empty
    range. *)
Theorem no_color_raises :
  number_of_colors ≤ 0 → graph ≠ [] → tabucol = Raise ValueError.
Proof.
  intros Hk Hg.
  assert (initial O = Raise ValueError) as Hinit.
  { unfold initial, range.
    destruct (length graph) as [|n] eqn:E; [by apply nil_length_inv in E|].
    simpl. unfold mbind, M_mbind, M_bind.
    rewrite randrange_empty; [done|]. rewrite len_colors. lia. }
  unfold tabucol, run. unfold mbind at 2, M_mbind, M_bind. by rewrite Hinit.
Qed.

Lemma initial_empty : graph = [] → initial O = Ok (Locals 0 [] (Some ∅) ∅ None None, O).
Proof. intros E. unfold initial. by rewrite E. Qed.

(** With no iteration allowed [conflict_count] is never assigned, and
    line 99 reads it. *)
Theorem no_iteration_raises :
  max_iterations ≤ 0 → 1 ≤ number_of_colors ∨ graph = [] →
  tabucol = Raise UnboundLocalError.
Proof.
  intros Hmax Hk.
  assert (∃ m p, initial O = Ok (Locals 0 [] (Some m) ∅ None None, p))
    as (m & p & Hinit).
  { destruct Hk as [Hk|Hg].
    - destruct (initial_total Hk) as (m & ? & _). eauto.
    - rewrite (initial_empty Hg). eauto. }
  unfold tabucol, run. unfold mbind at 2, M_mbind, M_bind. rewrite Hinit.
  replace (Z.to_nat max_iterations) with O by lia. simpl.
  by destruct (Z.ltb_spec 0 max_iterations); [lia|].
Qed.

(** The first iteration of a run. *)
Lemma run_first m p :
  1 ≤ max_iterations →
  initial O = Ok (Locals 0 [] (Some m) ∅ None None, p) →
  run = match iteration (Locals 0 [] (Some m) ∅ None None) p with
        | Ok (Break, st', p') => Ok (Break, st', p')
        | Ok (Next, st', p') =>
            search (Z.to_nat max_iterations - 1) st' p'
        | Raise e => Raise e
        | OutOfFuel => OutOfFuel
        end.
Proof.
  intros Hmax Hinit. unfold run. unfold mbind, M_mbind, M_bind.
  rewrite Hinit.
  destruct (Z.to_nat max_iterations) as [|fuel] eqn:E; [lia|]. simpl.
  destruct (Z.ltb_spec 0 max_iterations); [|lia].
  rewrite Nat.sub_0_r. unfold mbind, M_mbind, M_bind.
  by destruct (iteration _ _) as [[[[|] st'] p']| |].
Qed.

Lemma tabucol_run_Raise e : run = Raise e → tabucol = Raise e.
Proof. unfold tabucol. by intros ->. Qed.

Lemma iteration_Raise st pos e :
  evaluate (solution st) = Raise e → iteration st pos = Raise e.
Proof.
  intros Hev. unfold iteration, mbind, M_mbind, M_bind, lift. by rewrite Hev.
Qed.

Lemma iteration_no_attempt st pos cands count :
  reps ≤ 0 → node st = None →
  evaluate (solution st) = Ok (cands, count) → count ≠ 0 →
  iteration st pos = Raise UnboundLocalError.
Proof.
  intros Hreps Hnode Hev Hcount. unfold iteration.
  unfold mbind at 1, M_mbind, M_bind. unfold lift at 1. rewrite Hev.
  destruct (decide _); [done|].
  replace (Z.to_nat reps) with O by lia. simpl.
  unfold mbind, M_mbind, M_bind, mret, M_mret, M_ret. simpl.
  by rewrite Hnode.
Qed.

Lemma iteration_Break st pos cands :
  evaluate (solution st) = Ok (cands, 0) →
  iteration st pos =
  Ok (Break,
      Locals (iterations st) (tabu st) (solution st) (aspiration_level st)
             (Some 0) (node st),
      pos).
Proof.
  intros Hev. apply iteration_Ok. exists cands, 0. split; [done|]. by left.
Qed.

Lemma proper_count m cands count :
  evaluate (Some m) = Ok (cands, count) → proper m → count = 0.
Proof.
  intros Hev Hp. apply (evaluate_empty _ _ _ Hev).
  apply nodeset_empty_iff. intros x.
  rewrite (proj2 (evaluate_exact _ _ _ Hev)).
  intros (i & j & Hij & (Hadj & c & Hci & Hcj) & _).
  destruct (Hp i j Hij Hadj) as (ci & cj & Hi & Hj & Hneq).
  simpl in Hci, Hcj. rewrite Hi in Hci. rewrite Hj in Hcj. congruence.
Qed.

(** On a square matrix, with a color and an iteration allowed
    ([k ≥ 1], [max_iterations ≥ 1]) but no attempt ([reps ≤ 0]), [node]
    is never assigned: the call returns the initial solution when that
    is proper and otherwise raises at line 85; it never returns
    [None]. *)
Theorem no_attempt_raises :
  reps ≤ 0 → 1 ≤ max_iterations → 1 ≤ number_of_colors → square →
  ∃ m, initial O = Ok (Locals 0 [] (Some m) ∅ None None, length graph) ∧
       ((proper m ∧ tabucol = Ok (Some m)) ∨
        (¬ proper m ∧ tabucol = Raise UnboundLocalError)).
Proof.
  intros Hreps Hmax Hk Hsq.
  destruct (initial_total Hk) as (m & Hinit & Hm & _).
  exists m. split; [done|].
  destruct (evaluate_total m Hsq Hm) as (cands & count & Hev).
  pose proof (run_first _ _ Hmax Hinit) as Hrun.
  destruct (decide (count = 0)) as [->|Hne].
  - left. split; [by eapply evaluate_proper|].
    rewrite (iteration_Break _ _ cands) in Hrun by done.
    unfold tabucol. by rewrite Hrun.
  - right. split; [intros Hp; by eapply Hne, proper_count|].
    rewrite (iteration_no_attempt _ _ cands count) in Hrun by done.
    by apply tabucol_run_Raise.
Qed.


Lemma for_each_Raise {A T} (body : T → A → result T) l s e :
  for_each body l s = Raise e → ∃ s1 x, x ∈ l ∧ body s1 x = Raise e.
Proof.
  revert s. induction l as [|x l IH]; intros s H; simpl in H; [done|].
  destruct (body s x) as [s2| |] eqn:E; simpl in H; [| |done].
  - destruct (IH _ H) as (s1 & y & ? & ?).
    exists s1, y. split; [by apply list_elem_of_further|done].
  - injection H as <-. exists s, x. split; [apply list_elem_of_here|done].
Qed.

Lemma getitem_Raise {A} (l : list A) i e :
  getitem l i = Raise e → e = IndexError.
Proof.
  unfold getitem. cbv zeta. destruct (_ <? 0); [by intros [= <-]|].
  destruct (l !! _); [done|by intros [= <-]].
Qed.

(** On a solution that colors every node the evaluation can only fail
    for lack of a matrix entry. *)
Lemma evaluate_Raise m e :
  total m → evaluate (Some m) = Raise e → e = IndexError.
Proof.
  intros Hm. rewrite evaluate_pairs.
  intros (acc & [i j] & Hij%elem_of_pairs & H)%for_each_Raise.
  simpl in H. unfold scan_pair, adjacent in H.
  destruct (getitem graph _) as [row| |] eqn:Erow; simpl in H;
    [|injection H as <-; by eapply getitem_Raise|done].
  destruct (getitem row _) as [x| |] eqn:Ex; simpl in H;
    [|injection H as <-; by eapply getitem_Raise|done].
  destruct (0 <? x); [|done].
  destruct (Hm i) as [ci Hci]; [lia|]. destruct (Hm j) as [cj Hcj]; [lia|].
  rewrite Hci, Hcj in H. simpl in H. by destruct (decide _).
Qed.

(** ** Graphs without edges and without rows *)


(** With a color and an iteration allowed ([k ≥ 1],
    [max_iterations ≥ 1]), a matrix with a row too short for a column
    the scan reaches makes the first evaluation raise [IndexError]. *)
Theorem ragged_raises i j row :
  1 ≤ max_iterations → 1 ≤ number_of_colors →
  (i < j < length graph)%nat →
  graph !! i = Some row → (length row ≤ j)%nat →
  tabucol = Raise IndexError.
Proof.
  intros Hmax Hk Hij Hrow Hlen.
  destruct (initial_total Hk) as (m & Hinit & Hm & _).
  assert (adjacent i j = Raise IndexError) as Hadj.
  { unfold adjacent. rewrite getitem_nat, Hrow. simpl.
    by rewrite getitem_nat, lookup_ge_None_2. }
  assert (evaluate (Some m) = Raise IndexError) as Hev.
  { destruct (evaluate (Some m)) as [[cands count]|e|] eqn:E.
    - apply evaluate_Ok in E as (_ & _ & _ & Hs & _).
      destruct (Hs i j Hij) as (adj & Hadj' & _). congruence.
    - by rewrite (evaluate_Raise m e Hm E).
    - by destruct (evaluate_fuelled (Some m)). }
  apply (tabucol_run_Raise IndexError). rewrite (run_first _ _ Hmax Hinit).
  by rewrite (iteration_Raise _ _ IndexError).
Qed.

(** On a graph that has no proper coloring within the palette every
    run ends in [None], whatever the random stream. *)
Theorem uncolorable_returns_None :
  2 ≤ number_of_colors → 1 ≤ reps → 1 ≤ max_iterations → square →
  (∀ m, palette m → ¬ proper m) →
  tabucol = Ok None.
Proof.
  intros Hk Hreps Hmax Hsq Hno.
  destruct tabucol_total as [[m|] Hr]; try done.
  exfalso. apply tabucol_Some in Hr as [[cands Hev] Hpal].
  apply (Hno m Hpal). by eapply evaluate_proper.
Qed.


(** ** What one iteration does *)

Lemma push_last m t : 1 ≤ tabu_size → last (push m t) = Some m.
Proof.
  intros Hsize. unfold push, popleft, len. cbv zeta.
  rewrite length_app. simpl.
  destruct (Z.ltb_spec tabu_size (Z.of_nat (length t + 1)));
    [|apply last_snoc].
  destruct t as [|x t]; simpl in *; [lia|apply last_snoc].
Qed.

Lemma count_conflicts_Ok sol new :
  count_conflicts sol = Ok new →
  0 ≤ new ∧ ∃ cands, evaluate sol = Ok (cands, new).
Proof.
  rewrite count_conflicts_evaluate.
  intros ([cands count] & Hev & [= <-])%bind_Ok.
  split; [by apply evaluate_Ok in Hev as (? & _)|eauto].
Qed.

(** An iteration that goes on recolors exactly one node, an end of a
    conflicting pair, with another color of the palette, and its newest
    tabu entry is that node with the color it had. *)
Theorem iteration_moves_one_node st pos st' pos' :
  1 ≤ reps → 1 ≤ tabu_size →
  iteration st pos = Ok (Next, st', pos') →
  ∃ m cands count nd old new,
    solution st = Some m ∧
    evaluate (Some m) = Ok (cands, count) ∧ 0 < count ∧
    nd ∈ cands ∧ m !! nd = Some old ∧
    new ≠ old ∧ 0 ≤ new < number_of_colors ∧
    solution st' = Some (<[nd:=new]> m) ∧
    node st' = Some nd ∧
    last (tabu st') = Some (nd, old) ∧
    conflict_count st' = Some count ∧
    iterations st' = iterations st + 1.
Proof.
  intros Hreps Hsize.
  rewrite iteration_Ok.
  intros (cands & count & Hev &
          [(? & _)|(_ & Hne & s & nd & old & Hs & Hnd & Hold & ->)]); [done|].
  apply sample_Ok in Hs
    as [(Hz & _)|(k & s1 & p1 & fl & _ & _ & Hatt & _)]; [lia|].
  pose proof (attempt_new_solution _ _ _ _ _ _ _ _ Hatt)
    as (m0 & nd0 & nc0 & _ & Hcand & _ & _ & Hnd0 & _).
  apply attempt_recolors in Hatt
    as (m & nd1 & cur & nc & Hsol & Hcur & Hnd1 & Hnew & Hneq & Hnc).
  rewrite Hnd in Hnd0, Hnd1. injection Hnd0 as <-. injection Hnd1 as <-.
  rewrite Hsol in Hold, Hev. simpl in Hold. rewrite Hcur in Hold.
  injection Hold as <-.
  exists m, cands, count, nd, cur, nc. simpl.
  split_and!; try done; try lia.
  - apply evaluate_Ok in Hev as (? & _). lia.
  - by apply list_of_set_elem_of.
  - by apply push_last.
Qed.

Lemma attempt_cursor sol count cands s pos fl s' pos' :
  attempt sol count cands s pos = Ok (fl, s', pos') → pos' = S (S pos).
Proof.
  rewrite attempt_Ok.
  by intros (? & ? & ? & ? & ? & ? & ? & ? &
             _ & _ & _ & _ & _ & _ & _ & _ & -> & _).
Qed.

Lemma sampled_cursor sol count cands k s pos s1 pos1 :
  sampled sol count cands k s pos s1 pos1 → pos1 = (pos + 2 * k)%nat.
Proof.
  induction 1 as [|k s pos s1 pos1 s2 pos2 _ IH Hatt]; [lia|].
  apply attempt_cursor in Hatt. lia.
Qed.



Lemma attempt_Next sol count cands s p s' p' :
  attempt sol count cands s p = Ok (Next, s', p') →
  s_tabu s' = s_tabu s ∧ s_aspiration s' = s_aspiration s ∧
  ∃ m nd new_color new,
    s_node s' = Some nd ∧
    s_new_solution s' = Some m ∧ m !! nd = Some new_color ∧
    count_conflicts (Some m) = Ok new ∧
    (count ≤ new ∨
     ((nd, new_color) ∈ s_tabu s ∧
      ∃ a, s_aspiration s !! count = Some a ∧ a < new)).
Proof.
  rewrite attempt_Ok.
  intros (r & nd & d & c & m & cur & nc & new & _ & _ & _ & _ & _ &
          _ & _ & Hnew & _ & Hacc & Hnode & Hsol).
  apply accept_cases in Hacc as [H|[H|H]].
  - destruct H as (? & _ & -> & ->). split_and!; try done.
    exists (<[nd:=nc]> m), nd, nc, new.
    rewrite lookup_insert_eq. split_and!; auto.
  - by destruct H as (a & asp1 & _ & _ & _ & ? & _).
  - destruct H as (a & Hlt & Hsd & Ha & -> & -> & Hfl).
    destruct (decide ((nd, nc) ∈ s_tabu s)); [|done].
    split_and!; try done.
    exists (<[nd:=nc]> m), nd, nc, new.
    rewrite lookup_insert_eq. split_and!; try done.
    right. split; [done|]. exists a. split; [|done].
    apply setdefault_lookup in Hsd as (Hsome & _ & Hold).
    destruct (s_aspiration s !! count) eqn:E; [|lia].
    by destruct Hold as [-> _].
Qed.

(** An attempt that is not accepted leaves the tabu list and the
    aspiration table as they were, the [setdefault] of line 63
    notwithstanding; and if it lowered the conflict count, its move was
    tabu and the aspiration level stored for this count is below the
    count it reached. *)
Theorem rejected_attempt_leaves_no_trace sol count cands s p s' p' :
  attempt sol count cands s p = Ok (Next, s', p') →
  s_tabu s' = s_tabu s ∧ s_aspiration s' = s_aspiration s ∧
  ∃ m nd new_color new,
    s_node s' = Some nd ∧
    s_new_solution s' = Some m ∧ m !! nd = Some new_color ∧
    count_conflicts (Some m) = Ok new ∧
    (count ≤ new ∨
     ((nd, new_color) ∈ s_tabu s ∧
      ∃ a, s_aspiration s !! count = Some a ∧ a < new)).
Proof. apply attempt_Next. Qed.

(** ** Invariants of a run *)

Lemma accept_levels count new m t asp fl t' asp' :
  0 < count → 0 ≤ new →
  (∀ z v, asp !! z = Some v → 0 < z ∧ -1 ≤ v < z) →
  accept count new m t asp = (fl, t', asp') →
  ∀ z v, asp' !! z = Some v → 0 < z ∧ -1 ≤ v < z.
Proof.
  intros Hcount Hnew Hasp [H|[H|H]]%accept_cases.
  - by destruct H as (_ & _ & _ & ->).
  - destruct H as (a & asp1 & Hlt & Hsd & _ & _ & -> & _).
    apply setdefault_lookup in Hsd as (_ & Hother & _).
    intros z v. rewrite lookup_insert.
    destruct (decide (count = z)) as [<-|Hne]; [intros [= <-]; lia|].
    rewrite Hother by done. apply Hasp.
  - by destruct H as (a & _ & _ & _ & _ & -> & _).
Qed.

Lemma sample_levels sol count cands n s pos s' pos' :
  0 < count →
  (∀ z v, s_aspiration s !! z = Some v → 0 < z ∧ -1 ≤ v < z) →
  sample sol count cands n s pos = Ok (s', pos') →
  ∀ z v, s_aspiration s' !! z = Some v → 0 < z ∧ -1 ≤ v < z.
Proof.
  intros Hcount Hs.
  apply (sample_inv
           (λ s, ∀ z v, s_aspiration s !! z = Some v → 0 < z ∧ -1 ≤ v < z));
    [|done].
  intros s1 p1 fl s2 p2 Hs1 Hatt. apply attempt_Ok in Hatt.
  destruct Hatt as (r & nd & d & c & m & cur & nc & new & _ & _ & _ & _ & _ &
                    _ & _ & Hnew%count_conflicts_Ok & _ & Hacc & _).
  eapply accept_levels; [done| |done|done]. by destruct Hnew.
Qed.

Lemma reachable_levels st pos :
  reachable st pos →
  ∀ z v, aspiration_level st !! z = Some v → 0 < z ∧ -1 ≤ v < z.
Proof.
  induction 1 as [st pos Hinit|st pos st' pos' _ IH _ Hit].
  - apply initial_Ok in Hinit as (m & -> & _). simpl. intros z v.
    by rewrite lookup_empty.
  - apply iteration_Ok in Hit
      as (cands & count & Hev & [(? & _)|(_ & Hne & s & nd & old & Hs & _ & _ & ->)]);
      [done|].
    simpl. apply evaluate_Ok in Hev as (? & _).
    assert (0 < count) as Hcount by lia.
    apply (λ inv, sample_levels _ _ _ _ _ _ _ _ Hcount inv Hs). exact IH.
Qed.

(** Every entry of the aspiration table sits under a positive conflict
    count [z] and holds a value of [[-1, z)]: an aspiration level is
    always below its own conflict count. *)
Theorem aspiration_levels :
  (∀ st pos, reachable st pos →
     ∀ z v, aspiration_level st !! z = Some v → 0 < z ∧ -1 ≤ v < z) ∧
  (∀ fl st pos, run = Ok (fl, st, pos) →
     ∀ z v, aspiration_level st !! z = Some v → 0 < z ∧ -1 ≤ v < z).
Proof.
  split; [apply reachable_levels|].
  intros fl st pos Hrun%run_Ok. destruct fl.
  - destruct Hrun as (st0 & pos0 & Hst0 & _ & Hit).
    pose proof (reachable_levels _ _ Hst0) as Hlev.
    apply iteration_Ok in Hit
      as (cands & count & _ & [(_ & _ & _ & ->)|(? & _)]); done.
  - destruct Hrun as [Hst _]. by eapply reachable_levels.
Qed.

Lemma sample_cursor sol count cands n s pos s' pos' :
  sample sol count cands n s pos = Ok (s', pos') →
  (pos ≤ pos' ≤ pos + 2 * n)%nat.
Proof.
  intros [(_ & _ & ->)|(k & s1 & p1 & fl & Hk & ->%sampled_cursor &
                        ->%attempt_cursor & _)]%sample_Ok; lia.
Qed.

Lemma reachable_cursor st pos :
  reachable st pos →
  (length graph ≤ pos ≤
   length graph + 2 * Z.to_nat reps * Z.to_nat (iterations st))%nat.
Proof.
  induction 1 as [st pos Hinit|st pos st' pos' Hst IH _ Hit].
  - apply initial_keys in Hinit as [-> _]. lia.
  - apply reachable_at_head in Hst as (Hit0 & _).
    apply iteration_Ok in Hit
      as (cands & count & Hev & [(? & _)|(_ & Hne & s & nd & old & Hs%sample_cursor & _ & _ & ->)]);
      [done|].
    simpl. replace (Z.to_nat (iterations st + 1))
      with (S (Z.to_nat (iterations st))) by lia.
    rewrite Nat.mul_succ_r. lia.
Qed.

(** A run draws [len(graph)] random numbers for the initial solution
    and two per attempt, hence at most
    [len(graph) + 2 * reps * iterations] in all, with [iterations] at
    most [max_iterations]. *)
Theorem draws_bounded fl st pos :
  run = Ok (fl, st, pos) →
  (length graph ≤ pos ≤
   length graph + 2 * Z.to_nat reps * Z.to_nat (iterations st))%nat ∧
  0 ≤ iterations st ≤ Z.max 0 max_iterations.
Proof.
  intros Hrun%run_Ok. destruct fl.
  - destruct Hrun as (st0 & pos0 & Hst0 & _ & Hit).
    pose proof (reachable_cursor _ _ Hst0).
    apply reachable_at_head in Hst0 as (? & _).
    apply iteration_Ok in Hit
      as (cands & count & _ & [(_ & _ & -> & ->)|(? & _)]); done.
  - destruct Hrun as [Hst _]. split; [by apply reachable_cursor|].
    by apply reachable_at_head in Hst as (? & _).
Qed.

(** With [tabu_size ≤ 0] the tabu list is empty each time an iteration
    starts and during its sampling, so an attempt is turned down only
    for not lowering the conflict count. *)
Theorem tabu_disabled :
  tabu_size ≤ 0 →
  (∀ st pos, reachable st pos → tabu st = []) ∧
  (∀ st pos count cands k s1 pos1 s2 pos2,
      reachable st pos →
      sampled (solution st) count cands k
              (Sampler (node st) None (tabu st) (aspiration_level st)) pos
              s1 pos1 →
      attempt (solution st) count cands s1 pos1 = Ok (Next, s2, pos2) →
      s_tabu s1 = [] ∧
      ∃ m new, s_new_solution s2 = Some m ∧
               count_conflicts (Some m) = Ok new ∧ count ≤ new).
Proof.
  intros Hsize.
  assert (∀ st pos, reachable st pos → tabu st = []) as Hempty.
  { intros st pos (_ & _ & _ & Ht & _)%reachable_at_head.
    apply nil_length_inv. unfold len in Ht. lia. }
  split; [done|].
  intros st pos count cands k s1 pos1 s2 pos2 Hst Hs%sampled_tabu_length Hatt.
  simpl in Hs. rewrite (Hempty _ _ Hst) in Hs. simpl in Hs.
  assert (s_tabu s1 = []) as Ht by (apply nil_length_inv; lia).
  split; [done|].
  apply attempt_Next in Hatt
    as (_ & _ & m & nd & nc & new & _ & Hm & _ & Hnew & [?|[Hin _]]).
  - eauto.
  - rewrite Ht in Hin. by apply elem_of_nil in Hin.
Qed.

End Tabucol.

(** ** What of the adjacency matrix is read *)

Lemma for_each_ext {A T} (body1 body2 : T → A → result T) l s :
  (∀ s x, x ∈ l → body1 s x = body2 s x) →
  for_each body1 l s = for_each body2 l s.
Proof.
  revert s. induction l as [|x l IH]; intros s Hext; simpl; [done|].
  rewrite Hext by set_solver. destruct (body2 s x); simpl; [|done..].
  apply IH. intros. apply Hext. set_solver.
Qed.

Lemma M_bind_ext {A B} (f g : A → M B) (m : M A) pos :
  (∀ a p, f a p = g a p) → (m ≫= f) pos = (m ≫= g) pos.
Proof.
  intros Hfg. unfold mbind, M_mbind, M_bind.
  destruct (m pos) as [[a p]| |]; auto.
Qed.

Section UpperTriangle.

Context {order : SetOrder}.
Variable rng : generator.
Variables g1 g2 : list (list Z).
Variable number_of_colors : Z.
Variables tabu_size reps max_iterations : Z.

Hypothesis same_size : length g1 = length g2.
Hypothesis same_upper :
  ∀ i j, (i < j < length g1)%nat →
         (row ← g1 !! i; row !! j) = (row ← g2 !! i; row !! j).

Lemma adjacent_upper i j :
  (i < j < length g1)%nat → adjacent g1 i j = adjacent g2 i j.
Proof using same_size same_upper.
  intros Hij. pose proof (same_upper i j Hij) as H.
  unfold adjacent. rewrite !getitem_nat.
  destruct (g1 !! i) as [r1|] eqn:E1, (g2 !! i) as [r2|] eqn:E2; simpl in *;
    rewrite ?getitem_nat.
  - by rewrite H.
  - destruct (lookup_lt_is_Some_2 g2 i) as [? ?]; [lia|congruence].
  - destruct (lookup_lt_is_Some_2 g1 i) as [? ?]; [lia|congruence].
  - done.
Qed.

Lemma evaluate_upper sol : evaluate g1 sol = evaluate g2 sol.
Proof using same_size same_upper.
  rewrite !evaluate_pairs, <-same_size. apply for_each_ext.
  intros acc [i j] Hij%elem_of_pairs. unfold scan_pair. simpl.
  by rewrite adjacent_upper.
Qed.

Lemma count_conflicts_upper sol : count_conflicts g1 sol = count_conflicts g2 sol.
Proof using same_size same_upper.
  by rewrite !count_conflicts_evaluate, evaluate_upper. Qed.

Lemma attempt_upper sol count cands s pos :
  attempt rng g1 number_of_colors sol count cands s pos =
  attempt rng g2 number_of_colors sol count cands s pos.
Proof using same_size same_upper.
  unfold attempt.
  do 7 (apply M_bind_ext; intros ? ?).
  by rewrite count_conflicts_upper.
Qed.

Lemma sample_upper sol count cands n s pos :
  sample rng g1 number_of_colors sol count cands n s pos =
  sample rng g2 number_of_colors sol count cands n s pos.
Proof using same_size same_upper.
  revert s pos. induction n as [|n IH]; intros s pos; simpl; [done|].
  unfold mbind, M_mbind, M_bind. rewrite attempt_upper.
  destruct (attempt _ _ _ _ _ _ _ _) as [[[[|] s1] p1]| |]; auto.
Qed.

Lemma iteration_upper st pos :
  iteration rng g1 number_of_colors tabu_size reps st pos =
  iteration rng g2 number_of_colors tabu_size reps st pos.
Proof using same_size same_upper.
  unfold iteration, mbind, M_mbind, M_bind. rewrite evaluate_upper.
  destruct (lift _ _) as [[[cands count] p]| |]; [|done..].
  destruct (decide _); [done|]. by rewrite sample_upper.
Qed.

Lemma search_upper fuel st pos :
  search rng g1 number_of_colors tabu_size reps max_iterations fuel st pos =
  search rng g2 number_of_colors tabu_size reps max_iterations fuel st pos.
Proof using same_size same_upper.
  revert st pos. induction fuel as [|fuel IH]; intros st pos; simpl; [done|].
  destruct (_ <? _); [|done].
  unfold mbind, M_mbind, M_bind. rewrite iteration_upper.
  destruct (iteration _ _ _ _ _ _ _) as [[[[|] st1] p1]| |]; auto.
Qed.

(** C10 (only the strict upper triangle is read): two matrices with as
    many rows that agree on every entry [[i][j]], [i < j], give under
    the same random stream the same initial solution, the same conflict
    count and the same sequence of [add]s to [move_candidates] for every
    solution (hence the same list of candidates), the same result of
    every iteration from every state, the same final locals and the same
    return value; nothing is asked of the diagonal or of the lower
    triangle. *)
Theorem upper_triangle_only :
  initial rng g1 number_of_colors = initial rng g2 number_of_colors ∧
  (∀ sol, evaluate g1 sol = evaluate g2 sol) ∧
  (∀ st pos,
      iteration rng g1 number_of_colors tabu_size reps st pos =
      iteration rng g2 number_of_colors tabu_size reps st pos) ∧
  run rng g1 number_of_colors tabu_size reps max_iterations =
  run rng g2 number_of_colors tabu_size reps max_iterations ∧
  tabucol rng g1 number_of_colors tabu_size reps max_iterations =
  tabucol rng g2 number_of_colors tabu_size reps max_iterations.
Proof using same_size same_upper.
  assert (initial rng g1 number_of_colors = initial rng g2 number_of_colors)
    as Hinit by (unfold initial; by rewrite same_size).
  assert (run rng g1 number_of_colors tabu_size reps max_iterations =
          run rng g2 number_of_colors tabu_size reps max_iterations) as Hrun.
  { unfold run, mbind, M_mbind, M_bind. rewrite Hinit.
    destruct (initial _ _ _ _) as [[st p]| |]; [|done..].
    apply search_upper. }
  split_and!; try done.
  - apply evaluate_upper.
  - apply iteration_upper.
  - unfold tabucol. by rewrite Hrun.
Qed.

End UpperTriangle.

(** ** What of the entries is read *)

Section Weights.

Context {order : SetOrder}.
Variable rng : generator.
Variables g1 g2 : list (list Z).
Variable number_of_colors : Z.
Variables tabu_size reps max_iterations : Z.

Hypothesis same_rows : length g1 = length g2.
Hypothesis same_sign :
  ∀ i j, (i < j < length g1)%nat → adjacent g1 i j = adjacent g2 i j.







End Weights.

(** ** The test driver *)

(** [coloring[node]] for a node label of the networkx graph; the keys of
    a coloring are the indices [0 .. n-1]. *)
Definition item (coloring : option coloring) (node : Z) : result Z :=
  match coloring with
  | None => Raise TypeError
  | Some m => if node <? 0 then Raise KeyError
              else subscript (Some m) (Z.to_nat node)
  end.

(** A list comprehension whose element expression may raise. *)
Fixpoint comprehension {A B} (f : A → result B) (l : list A)
  : result (list B) :=
  match l with
  | [] => Ok []
  | x :: l' => y ← f x; ys ← comprehension f l'; Ok (y :: ys)
  end.

(** Lines 126-132, for a networkx graph with integer node labels.  The
    graph is given by what the library calls make of it: [graph], the
    nested list of line 127, and [nodes], the labels its iteration
    yields.  The result is the [node_color] list handed to [nx.draw], if
    it is called; drawing itself is not modelled. *)
Definition test {order : SetOrder} (rng : generator)
    (graph : list (list Z)) (nodes : list Z) (k : Z) (draw : bool)
  : result (option (list Z)) :=
  coloring ← tabucol rng graph k 7 100 10000;
  if draw then
    values ← comprehension (item coloring) nodes;
    Ok (Some values)
  else Ok None.

Lemma comprehension_Ok {A B} (f : A → result B) l ys :
  comprehension f l = Ok ys ↔ Forall2 (λ x y, f x = Ok y) l ys.
Proof.
  revert ys. induction l as [|x l IH]; intros ys; simpl.
  - split; [intros [= <-]; constructor|by intros ->%Forall2_nil_inv_l].
  - rewrite bind_Ok. split.
    + intros (y & Hy & (ys' & Hys & [= <-])%bind_Ok).
      constructor; [done|by apply IH].
    + intros (y & ys' & Hy & Hys & ->)%Forall2_cons_inv_l.
      exists y. split; [done|]. apply bind_Ok. exists ys'.
      split; [by apply IH|done].
Qed.

(** With [draw] set, a search that fails makes [test] raise
    [TypeError] at line 130 as soon as the graph has a node; on a graph
    without a proper [k]-coloring that is every call. *)
Theorem test_draws_failure (order : SetOrder) rng graph nodes k :
  nodes ≠ [] →
  (tabucol rng graph k 7 100 10000 = Ok None →
   test rng graph nodes k true = Raise TypeError) ∧
  (2 ≤ k → square graph → (∀ m, palette k m → ¬ proper graph m) →
   test rng graph nodes k true = Raise TypeError).
Proof.
  intros Hnodes.
  assert (tabucol rng graph k 7 100 10000 = Ok None →
          test rng graph nodes k true = Raise TypeError) as Hnone.
  { intros Hr. unfold test. rewrite Hr. simpl. by destruct nodes. }
  split; [done|]. intros Hk Hsq Hno. apply Hnone.
  destruct (tabucol_total rng graph k 7 100 10000) as [[m|] Hr]; try done.
  exfalso. apply tabucol_Some in Hr as [[cands Hev] Hpal].
  apply (Hno m Hpal). by eapply evaluate_proper.
Qed.

(** When the node labels are the indices [0 .. n-1] in order and the
    search succeeds, [test] hands [nx.draw] the colors of the returned
    coloring, node by node: one color of [[0, k)] per node, different at
    the two ends of every edge. *)
Theorem test_draws_coloring (order : SetOrder) rng graph k m :
  tabucol rng graph k 7 100 10000 = Ok (Some m) →
  ∃ values,
    test rng graph (Z.of_nat <$> seq 0 (length graph)) k true
      = Ok (Some values) ∧
    length values = length graph ∧
    (∀ i, (i < length graph)%nat → values !! i = m !! i) ∧
    (∀ i c, values !! i = Some c → 0 ≤ c < k) ∧
    (∀ i j, (i < j < length graph)%nat → adjacent graph i j = Ok true →
            values !! i ≠ values !! j).
Proof.
  intros Hr.
  pose proof (tabucol_keyed _ _ _ _ _ _ _ Hr) as Hkeys.
  pose proof (tabucol_Some _ _ _ _ _ _ _ Hr) as [[cands Hev] Hpal].
  pose proof (evaluate_proper _ _ _ Hev) as Hproper.
  assert (∃ values, Forall2 (λ x y, item (Some m) x = Ok y)
                            (Z.of_nat <$> seq 0 (length graph)) values ∧
                    length values = length graph ∧
                    ∀ i, (i < length graph)%nat → values !! i = m !! i)
    as (values & Hvalues & Hlen & Hlook).
  { assert (∀ n, (n ≤ length graph)%nat →
              ∃ values, Forall2 (λ x y, item (Some m) x = Ok y)
                                (Z.of_nat <$> seq 0 n) values ∧
                        length values = n ∧
                        ∀ i, (i < n)%nat → values !! i = m !! i) as Hn.
    { induction n as [|n IH]; intros Hle.
      - exists []. split_and!; [constructor|done|lia].
      - destruct IH as (values & Hv & Hl & Hi); [lia|].
        destruct (proj2 (Hkeys n)) as [c Hc]; [lia|].
        exists (values ++ [c]). rewrite seq_S, fmap_app. simpl.
        split_and!.
        + apply Forall2_app; [done|]. constructor; [|constructor].
          unfold item. destruct (Z.ltb_spec (Z.of_nat n) 0); [lia|].
          simpl. by rewrite Nat2Z.id, Hc.
        + rewrite length_app. simpl. lia.
        + intros i Hlt. destruct (decide (i = n)) as [->|].
          * by rewrite lookup_app_r, Hl, Nat.sub_diag by lia.
          * rewrite lookup_app_l by lia. apply Hi. lia. }
    by apply Hn. }
  exists values. split_and!; try done.
  - unfold test. rewrite Hr. simpl.
    by rewrite (proj2 (comprehension_Ok _ _ _) Hvalues).
  - intros i c Hi. apply (Hpal i). rewrite <-Hlook; [done|].
    rewrite <-Hlen. by eapply lookup_lt_Some.
  - intros i j Hij Hadj. rewrite !Hlook by lia.
    destruct (Hproper i j Hij Hadj) as (ci & cj & -> & -> & ?). congruence.
Qed.

(** ** Runs at sample inputs *)

Lemma square_single_edge : square single_edge.
Proof.
  intros row Hrow. unfold single_edge in Hrow.
  repeat (apply elem_of_cons in Hrow as [->|Hrow]; [done|]).
  by apply elem_of_nil in Hrow.
Qed.

(** C3 (no exception on domain-valid input), as the code has it: on the
    symmetric, loop-free matrix of two joined nodes, with one color and
    at least one attempt and one iteration allowed, [tabucol] raises
    [ValueError], whatever the random stream, the order of the
    candidates and the size of the tabu list. *)
Theorem domain_valid_raises (order : SetOrder) rng tabu_size reps
    max_iterations :
  1 ≤ reps → 1 ≤ max_iterations →
  tabucol rng single_edge 1 tabu_size reps max_iterations = Raise ValueError.
Proof.
  intros Hreps Hmax.
  apply (single_color_ValueError rng single_edge 1 tabu_size reps
           max_iterations 0%nat 1%nat); try done.
  - apply square_single_edge.
  - simpl. lia.
Qed.

(** C9 (stale exhaustion verdict): the count an iteration leaves behind
    is that of the solution it started from, not of the one it installs,
    and a loop left because its condition fails returns [None] on that
    count; so the run on two joined nodes with two colors, a budget of one
    iteration and the all-zero random stream ends with a proper coloring
    in [solution] and returns [None]. *)
Theorem stale_exhaustion_verdict :
  (∀ (order : SetOrder) rng graph k tabu_size reps st pos st' pos',
      iteration rng graph k tabu_size reps st pos = Ok (Next, st', pos') →
      ∃ cands count,
        evaluate graph (solution st) = Ok (cands, count) ∧
        conflict_count st' = Some count ∧ count ≠ 0) ∧
  (∀ (order : SetOrder) rng graph k tabu_size reps max_iterations st pos,
      1 ≤ max_iterations →
      run rng graph k tabu_size reps max_iterations = Ok (Next, st, pos) →
      tabucol rng graph k tabu_size reps max_iterations = Ok None) ∧
  ∃ st pos m,
    run (order:=ascending) (stream []) single_edge 2 7 100 1
      = Ok (Next, st, pos) ∧
    solution st = Some m ∧
    evaluate single_edge (Some m) = Ok (∅, 0) ∧
    proper single_edge m ∧
    tabucol (order:=ascending) (stream []) single_edge 2 7 100 1 = Ok None.
Proof.
  split_and!.
  - intros order rng graph k tabu_size reps st pos st' pos' Hit.
    apply iteration_conflict_count in Hit as (cands & count & ? & ? & Hfl).
    exists cands, count. split_and!; try done. by apply Hfl.
  - intros. by eapply exhausted_returns_None.
  - eexists _, _, _. split; [vm_compute; reflexivity|]. simpl.
    split; [reflexivity|].
    split; [vm_compute; reflexivity|].
    split; [|vm_compute; reflexivity].
    apply evaluate_proper with (cands := ∅). vm_compute. reflexivity.
Qed.

(** ** The theorems at sample inputs *)

Lemma validity_on_success_witness :
  ∃ m, tabucol (order:=ascending) (stream []) single_edge 2 7 100 10000
         = Ok (Some m) ∧
       proper single_edge m ∧ palette 2 m.
Proof.
  eexists. split; [vm_compute; reflexivity|].
  apply (validity_on_success (order:=ascending) (stream []) single_edge
           2 7 100 10000).
  vm_compute. reflexivity.
Defined.

Lemma failure_well_formed_witness :
  ∃ st pos,
    run (order:=ascending) (stream []) single_edge 2 7 100 1
      = Ok (Next, st, pos) ∧
    tabucol (order:=ascending) (stream []) single_edge 2 7 100 1 = Ok None ∧
    iterations st = 1 ∧
    ∃ count, conflict_count st = Some count ∧ 0 < count.
Proof.
  eexists _, _. split; [vm_compute; reflexivity|].
  eapply (failure_well_formed (order:=ascending) (stream []) single_edge
            2 7 100 1); [lia|vm_compute; reflexivity].
Defined.

Lemma domain_valid_raises_witness :
  tabucol (order:=ascending) (stream []) single_edge 1 7 100 10000
    = Raise ValueError.
Proof. apply domain_valid_raises; lia. Defined.

Lemma single_color_with_edge_witness :
  tabucol (order:=ascending) (stream []) single_edge 1 7 100 10000 ≠ Ok None ∧
  (∃ e, tabucol (order:=ascending) (stream []) single_edge 1 7 100 10000
          = Raise e) ∧
  (square single_edge → 1 ≤ 100 → 1 ≤ 10000 →
   tabucol (order:=ascending) (stream []) single_edge 1 7 100 10000
     = Raise ValueError).
Proof.
  apply (single_color_with_edge (order:=ascending) (stream []) single_edge
           1 7 100 10000 0%nat 1%nat);
    [reflexivity|simpl; lia|reflexivity].
Defined.

Lemma tabu_list_bound_witness :
  len (push 2 (1%nat, 0) [(0%nat, 0); (0%nat, 1)]) ≤ 2 ∧
  push 2 (1%nat, 0) [(0%nat, 0); (0%nat, 1)] = [(0%nat, 1); (1%nat, 0)].
Proof.
  destruct (tabu_list_bound (order:=ascending) (stream []) single_edge
              2 2 100 1) as (_ & _ & _ & H); [lia|].
  destruct (H (1%nat, 0) [(0%nat, 0); (0%nat, 1)]) as [Hlen Hpush];
    [reflexivity|].
  split; [exact Hlen|]. rewrite Hpush. reflexivity.
Defined.


Lemma fallback_acceptance_witness :
  let st := Locals 0 [] (Some (<[2%nat:=1]> (<[1%nat:=0]> (<[0%nat:=0]> ∅))))
                   ∅ None None in
  ∃ st' pos',
    iteration (order:=ascending) (stream [0; 0; 1]) triangle 2 7 1 st 3%nat
      = Ok (Next, st', pos').
Proof.
  intros st.
  edestruct (fallback_acceptance (order:=ascending) (stream [0; 0; 1])
               triangle 2 7 1 st 3%nat) as (_ & _ & H).
  { vm_compute. reflexivity. }
  { reflexivity. }
  edestruct (H O) as (m & nd & old & new & conflicts & _ & _ & _ & _ & _ & _ & Hit).
  { reflexivity. }
  { constructor. }
  { vm_compute. reflexivity. }
  eexists _, _. exact Hit.
Defined.

(** The same members, added in another order, may be listed in another
    order. *)
Lemma list_of_set_history :
  list_of_set (SetOrder:=by_last_add) (add 1 (add 0 ∅)) ≠
  list_of_set (SetOrder:=by_last_add) (add 0 (add 1 ∅)).
Proof. vm_compute. discriminate. Qed.

Lemma upper_triangle_only_witness :
  tabucol (order:=by_last_add) (stream [0; 0; 0; 1]) triangle 3 7 100 10000 =
  tabucol (order:=by_last_add) (stream [0; 0; 0; 1])
          [[9; 1; 1]; [0; 9; 1]; [0; 0; 9]] 3 7 100 10000.
Proof.
  apply (upper_triangle_only (order:=by_last_add)); [reflexivity|].
  intros i j Hij. simpl in Hij.
  assert (i = 0 ∧ j = 1 ∨ i = 0 ∧ j = 2 ∨ i = 1 ∧ j = 2)%nat
    as [[-> ->]|[[-> ->]|[-> ->]]] by lia; reflexivity.
Defined.

Lemma tabucol_returns_witness :
  ∃ r, tabucol (order:=ascending) (stream [0; 0; 1]) triangle 2 7 100 50
         = Ok r.
Proof.
  apply tabucol_returns; try lia.
  intros row Hrow. unfold triangle in Hrow.
  repeat (apply elem_of_cons in Hrow as [->|Hrow]; [done|]).
  by apply elem_of_nil in Hrow.
Defined.

Lemma evaluator_contract_witness :
  let sol := Some (<[2%nat:=1]> (<[1%nat:=0]> (<[0%nat:=0]> ∅))) in
  ∃ cands count,
    evaluate triangle sol = Ok (cands, count) ∧
    (count = 0 ↔ cands = ∅).
Proof.
  intros sol.
  assert (∃ cands count, evaluate triangle sol = Ok (cands, count))
    as (cands & count & Hev) by (eexists _, _; vm_compute; reflexivity).
  exists cands, count. split; [exact Hev|].
  destruct (evaluator_contract triangle sol cands count Hev)
    as (_ & _ & _ & _ & H).
  exact H.
Defined.

Lemma returned_keys_witness :
  ∃ m, tabucol (order:=ascending) (stream []) single_edge 2 7 100 10000
         = Ok (Some m) ∧
       ∀ i, is_Some (m !! i) ↔ (i < length single_edge)%nat.
Proof.
  eexists. split; [vm_compute; reflexivity|].
  apply (returned_keys (order:=ascending) (stream []) single_edge
           2 7 100 10000).
  vm_compute. reflexivity.
Defined.

Lemma no_color_raises_witness :
  tabucol (order:=ascending) (stream []) single_edge 0 7 100 10000
    = Raise ValueError.
Proof. apply no_color_raises; [lia|done]. Defined.

Lemma no_iteration_raises_witness :
  tabucol (order:=ascending) (stream []) single_edge 2 7 100 0
    = Raise UnboundLocalError.
Proof. apply no_iteration_raises; [lia|left; lia]. Defined.

Lemma no_attempt_raises_witness :
  ∃ m, initial (stream []) single_edge 2 O
         = Ok (Locals 0 [] (Some m) ∅ None None, length single_edge) ∧
       ((proper single_edge m ∧
         tabucol (order:=ascending) (stream []) single_edge 2 7 0 10000
           = Ok (Some m)) ∨
        (¬ proper single_edge m ∧
         tabucol (order:=ascending) (stream []) single_edge 2 7 0 10000
           = Raise UnboundLocalError)).
Proof.
  apply (no_attempt_raises (order:=ascending) (stream []) single_edge
           2 7 0 10000); try lia.
  apply square_single_edge.
Defined.


Lemma ragged_raises_witness :
  tabucol (order:=ascending) (stream []) ragged 2 7 100 10000
    = Raise IndexError.
Proof.
  apply (ragged_raises (order:=ascending) (stream []) ragged 2 7 100 10000
           0%nat 1%nat [0]); [lia|lia|simpl; lia|reflexivity|simpl; lia].
Defined.

Lemma triangle_two_colors m : palette 2 m → ¬ proper triangle m.
Proof.
  intros Hpal Hp.
  destruct (Hp 0%nat 1%nat) as (c0 & c1 & H0 & H1 & ?);
    [simpl; lia|reflexivity|].
  destruct (Hp 0%nat 2%nat) as (c0' & c2 & H0' & H2 & ?);
    [simpl; lia|reflexivity|].
  destruct (Hp 1%nat 2%nat) as (c1' & c2' & H1' & H2' & ?);
    [simpl; lia|reflexivity|].
  simplify_eq.
  pose proof (Hpal _ _ H0). pose proof (Hpal _ _ H1).
  pose proof (Hpal _ _ H2). lia.
Qed.

Lemma square_triangle : square triangle.
Proof.
  intros row Hrow. unfold triangle in Hrow.
  repeat (apply elem_of_cons in Hrow as [->|Hrow]; [done|]).
  by apply elem_of_nil in Hrow.
Qed.

Lemma uncolorable_returns_None_witness :
  tabucol (order:=ascending) (stream [3; 1; 4; 1; 5]) triangle 2 7 3 20
    = Ok None.
Proof.
  apply uncolorable_returns_None; try lia.
  - apply square_triangle.
  - apply triangle_two_colors.
Defined.

Lemma iteration_moves_one_node_witness :
  let st := Locals 0 [] (Some (<[1%nat:=0]> (<[0%nat:=0]> ∅))) ∅ None None in
  ∃ st' pos',
    iteration (order:=ascending) (stream []) single_edge 2 7 100 st 2%nat
      = Ok (Next, st', pos') ∧
    iterations st' = iterations st + 1.
Proof.
  intros st.
  assert (∃ st' pos',
            iteration (order:=ascending) (stream []) single_edge 2 7 100
                      st 2%nat = Ok (Next, st', pos')) as (st' & pos' & Hit)
    by (eexists _, _; vm_compute; reflexivity).
  exists st', pos'. split; [exact Hit|].
  destruct (iteration_moves_one_node (order:=ascending) (stream [])
              single_edge 2 7 100 st 2%nat st' pos')
    as (m & cands & count & nd & old & new & _ & _ & _ & _ & _ & _ & _ & _ &
        _ & _ & _ & H); [lia|lia|exact Hit|exact H].
Defined.


Lemma rejected_attempt_leaves_no_trace_witness :
  let sol := Some (<[2%nat:=1]> (<[1%nat:=0]> (<[0%nat:=0]> ∅))) in
  ∃ s' pos',
    attempt (stream [0; 0; 1]) triangle 2 sol 1 [0; 1]%nat
            (Sampler None None [] ∅) 3%nat
      = Ok (Next, s', pos') ∧
    s_tabu s' = [] ∧ s_aspiration s' = ∅.
Proof.
  intros sol.
  assert (∃ s' pos',
            attempt (stream [0; 0; 1]) triangle 2 sol 1 [0; 1]%nat
                    (Sampler None None [] ∅) 3%nat = Ok (Next, s', pos'))
    as (s' & pos' & Hatt) by (eexists _, _; vm_compute; reflexivity).
  exists s', pos'. split; [exact Hatt|].
  destruct (rejected_attempt_leaves_no_trace (stream [0; 0; 1]) triangle 2
              sol 1 [0; 1]%nat (Sampler None None [] ∅) 3%nat s' pos' Hatt)
    as (Ht & Ha & _).
  split; [exact Ht|exact Ha].
Defined.

Lemma draws_bounded_witness :
  ∃ st pos,
    run (order:=ascending) (stream []) single_edge 2 7 100 10000
      = Ok (Break, st, pos) ∧
    (pos ≤ length single_edge
           + 2 * Z.to_nat 100 * Z.to_nat (iterations st))%nat.
Proof.
  assert (∃ st pos,
            run (order:=ascending) (stream []) single_edge 2 7 100 10000
              = Ok (Break, st, pos)) as (st & pos & Hrun)
    by (eexists _, _; vm_compute; reflexivity).
  exists st, pos. split; [exact Hrun|].
  destruct (draws_bounded (order:=ascending) (stream []) single_edge
              2 7 100 10000 Break st pos Hrun) as [[_ H] _].
  exact H.
Defined.

Lemma tabu_disabled_witness :
  ∃ st pos,
    reachable (order:=ascending) (stream []) triangle 2 0 3 10 st pos ∧
    iterations st = 1 ∧
    tabu st = [].
Proof.
  assert (∃ st0 pos0 st pos,
            initial (stream []) triangle 2 O = Ok (st0, pos0) ∧
            iterations st0 < 10 ∧
            iteration (order:=ascending) (stream []) triangle 2 0 3 st0 pos0
              = Ok (Next, st, pos) ∧
            iterations st = 1)
    as (st0 & pos0 & st & pos & Hinit & Hlt & Hit & Hone).
  { eexists _, _, _, _.
    split; [vm_compute; reflexivity|].
    split; [vm_compute; reflexivity|].
    split; [vm_compute; reflexivity|reflexivity]. }
  assert (reachable (order:=ascending) (stream []) triangle 2 0 3 10 st pos)
    as Hst.
  { eapply reachable_iteration; [|exact Hlt|exact Hit].
    apply reachable_initial. exact Hinit. }
  exists st, pos. split; [exact Hst|]. split; [exact Hone|].
  destruct (tabu_disabled (order:=ascending) (stream []) triangle 2 0 3 10)
    as [H _]; [lia|].
  exact (H st pos Hst).
Defined.


Lemma test_draws_failure_witness :
  test (order:=ascending) (stream [2; 7; 1]) triangle [0; 1; 2] 2 true
    = Raise TypeError.
Proof.
  apply test_draws_failure;
    [done|lia|apply square_triangle|apply triangle_two_colors].
Defined.

Lemma test_draws_coloring_witness :
  ∃ values,
    test (order:=ascending) (stream []) single_edge
         (Z.of_nat <$> seq 0 (length single_edge)) 2 true
      = Ok (Some values) ∧
    length values = length single_edge.
Proof.
  assert (∃ m, tabucol (order:=ascending) (stream []) single_edge 2 7 100 10000
                 = Ok (Some m)) as (m & Hm)
    by (eexists; vm_compute; reflexivity).
  destruct (test_draws_coloring ascending (stream []) single_edge 2 m Hm)
    as (values & Htest & Hlen & _).
  exists values. split; [exact Htest|exact Hlen].
Defined.
